(** * Popup login: need matching, session state store and popup handshake

    A shallow embedding of [library/index.ts] (the composition function
    [usePopupLogin]) and the properties of its four parts: the need matcher
    [authorize], the session state store [check], the popup handshake
    ([login], [showLoginPopup], the channel's [onmessage] handler) and the
    orchestrator [loginAndAuthorize]. *)

From stdpp Require Import base numbers strings list gmap.

Set Warnings "-register-all".
Local Open Scope Z_scope.

(** ** JSON data *)

(** Plain data as it travels in needs, in the state endpoint's body and in
    the extra context: primitives and objects.  An object is its list of
    fields; a key is looked up from the left. *)
Inductive JsValue : Type :=
| JNull
| JBool (b : bool)
| JNum (z : Z)
| JStr (s : string)
| JObj (fields : list (string * JsValue)).

Definition Fields : Type := list (string * JsValue).

Fixpoint get (k : string) (fields : Fields) : option JsValue :=
  match fields with
  | [] => None
  | (k', v) :: rest => if String.eqb k k' then Some v else get k rest
  end.

(** [a === b] on primitives; two distinct objects are never [===]. *)
Definition strict_eq (a b : JsValue) : bool :=
  match a, b with
  | JNull, JNull => true
  | JBool x, JBool y => Bool.eqb x y
  | JNum x, JNum y => Z.eqb x y
  | JStr x, JStr y => String.eqb x y
  | _, _ => false
  end.

(** Modelled from the spec: lodash's [isMatch] is imported by [index.ts] and
    is not part of the sources; the spec calls it a partial, deep subset
    match in which extra fields of the provided side are ignored.  On plain
    data that is: every field of the source is present in the object, with a
    [===] value when the source's value is a primitive and, recursively, a
    containing object when it is an object. *)
Fixpoint baseIsEqualPartial (srcValue objValue : JsValue) {struct srcValue} : bool :=
  match srcValue with
  | JObj sfs =>
      match objValue with
      | JObj ofs =>
          forallb (fun kv : string * JsValue =>
                     let '(k, sv) := kv in
                     match get k ofs with
                     | Some ov => baseIsEqualPartial sv ov
                     | None => false
                     end) sfs
      | _ => false
      end
  | _ => strict_eq srcValue objValue
  end.

Definition isMatch (object source : Fields) : bool :=
  baseIsEqualPartial (JObj source) (JObj object).

(** What "the object structurally contains all fields of the source" means,
    as a relation: the reading of the spec that [isMatch] is compared
    with. *)
Inductive Contains : JsValue -> JsValue -> Prop :=
| Contains_null : Contains JNull JNull
| Contains_bool b : Contains (JBool b) (JBool b)
| Contains_num z : Contains (JNum z) (JNum z)
| Contains_str s : Contains (JStr s) (JStr s)
| Contains_obj ofs sfs :
    (forall k sv, In (k, sv) sfs ->
                  exists ov, get k ofs = Some ov /\ Contains ov sv) ->
    Contains (JObj ofs) (JObj sfs).

(** ** Needs and the authentication state *)

(** Modelled from the spec: [Need] and [AuthenticationState] are declared in
    [./types], which is not part of the sources.  A need is a string, a
    function or an object; a function need is named by an identifier and
    run by [call_need] below.  The state has [loggedIn], an optional
    [needsProvided] and arbitrary user fields. *)
Abbreviation FnId := nat (only parsing).

Inductive Need : Type :=
| StringNeed (s : string)
| FunctionNeed (f : FnId)
| ObjectNeed (o : Fields).

Record AuthenticationState : Type := mkState {
  loggedIn : bool;
  needsProvided : option (list Need);
  userFields : Fields
}.

(** One invocation [requiredNeed(state, needsProvided, extra)]. *)
Record NeedCall : Type := mkCall {
  callee : FnId;
  call_state : AuthenticationState;
  call_provided : list Need;
  call_extra : JsValue
}.

(** [x || []]: an absent list is the empty one (an array is always truthy). *)
Definition or_empty (l : option (list Need)) : list Need :=
  match l with
  | Some x => x
  | None => []
  end.

(** [needsProvided.indexOf(requiredNeed)] for a string [requiredNeed]:
    the first index holding a [===] element, or -1. *)
Fixpoint indexOf_from (i : Z) (s : string) (l : list Need) : Z :=
  match l with
  | [] => -1
  | n :: rest =>
      if match n with StringNeed t => String.eqb s t | _ => false end
      then i
      else indexOf_from (i + 1) s rest
  end.

Definition indexOf (s : string) (l : list Need) : Z := indexOf_from 0 s l.

(** The callback of [needsProvided.some(...)] for an object need. *)
Definition object_candidate (requiredNeed : Fields) (n : Need) : bool :=
  match n with
  | StringNeed _ => false
  | FunctionNeed _ => false
  | ObjectNeed p => isMatch p requiredNeed
  end.

Section NeedMatcher.

(** The truthiness of what a function need resolves to. *)
Variable call_need : FnId -> AuthenticationState -> list Need -> JsValue -> bool.

(** The [for (const requiredNeed of needsRequired)] loop of [authorize]:
    the result and the function needs it invoked, in order. *)
Fixpoint authorize_loop (state : AuthenticationState) (needsProvided : list Need)
         (extra : JsValue) (needsRequired : list Need) : bool * list NeedCall :=
  match needsRequired with
  | [] => (false, [])
  | requiredNeed :: rest =>
      match requiredNeed with
      | StringNeed s =>
          if 0 <=? indexOf s needsProvided then (true, [])
          else authorize_loop state needsProvided extra rest
      | FunctionNeed f =>
          let call := mkCall f state needsProvided extra in
          if call_need f state needsProvided extra then (true, [call])
          else
            let '(b, calls) := authorize_loop state needsProvided extra rest in
            (b, call :: calls)
      | ObjectNeed o =>
          if existsb (object_candidate o) needsProvided then (true, [])
          else authorize_loop state needsProvided extra rest
      end
  end.

Definition authorize (state : AuthenticationState)
           (needsRequired needsProvided : option (list Need))
           (extra : JsValue) : bool * list NeedCall :=
  let needsProvided := or_empty needsProvided in
  let needsRequired := or_empty needsRequired in
  authorize_loop state needsProvided extra needsRequired.

(** The three tests of the loop's body, for one required need. *)
Definition need_satisfied (state : AuthenticationState) (needsProvided : list Need)
           (extra : JsValue) (requiredNeed : Need) : bool :=
  match requiredNeed with
  | StringNeed s => 0 <=? indexOf s needsProvided
  | FunctionNeed f => call_need f state needsProvided extra
  | ObjectNeed o => existsb (object_candidate o) needsProvided
  end.

End NeedMatcher.

(** ** The shared records of the module *)

(** Modelled from the spec: [LoginMessage] is declared in [./types]; the
    completion page posts a type, a status and a message. *)
Record LoginMessage : Type := mkMsg {
  msg_type : string;
  msg_status : string;
  msg_message : string
}.

(** [loginOptions], once [usePopupLogin] has filled it in.  The two
    notifiers are user code: what they do is an input of the functions
    that call them. *)
Record LoginOptions : Type := mkOptions {
  loginUrl : string;
  logoutUrl : string;
  completeUrl : string;
  redirectionCompleteUrl : option string;
  stateUrl : string;
  nextQueryParam : string;
  loginStateTransformer : option (AuthenticationState -> AuthenticationState)
}.

(** The promises handed out by [login] and [showLoginPopup], by allocation
    number, and what they settle with. *)
Abbreviation PromiseId := nat (only parsing).

Inductive PromiseValue : Type :=
| PVLoggedIn (b : bool)
| PVMessage (m : LoginMessage).

Inductive Settlement : Type :=
| Fulfilled (v : PromiseValue)
| Rejected (reason : string).

(** The closures stored in [loginData.promises]. *)
Inductive Waiter : Type :=
| RefreshWaiter                    (* () => check() *)
| LoginResolver (p : PromiseId)    (* (msg) => resolve(loginState.value.loggedIn) *)
| PopupResolver (p : PromiseId).   (* resolve, of showLoginPopup's promise *)

(** What [window.open] returns: a window, or null when the popup is blocked. *)
Inductive Window : Type := PopupWindow.

(** Effects visible outside of the module. *)
Inductive Event : Type :=
| EvGet (url : string)                                       (* axios.get(url) *)
| EvSetLoginState (st : AuthenticationState)                 (* loginState.value = st *)
| EvWindowOpen (url : string)                                (* window.open(url, '_blank') *)
| EvPopupFailedNotifier                                      (* popupFailedNotifier() *)
| EvNoAccessNotifier (st : AuthenticationState) (extra : JsValue)
| EvSetLocation (url : string)                               (* window.location.href = url *)
| EvNeedCall (c : NeedCall).                                 (* a function need was invoked *)

Record World : Type := mkWorld {
  loginState : AuthenticationState;        (* loginState.value *)
  promises : list Waiter;                  (* loginData.promises *)
  settled : gmap PromiseId Settlement;     (* the settled promises *)
  awaitingNotifier : list PromiseId;       (* reject functions held by pending .then callbacks *)
  nextPromise : PromiseId;
  location : string;                       (* window.location.href *)
  trace : list Event
}.

Definition set_loginState (st : AuthenticationState) (w : World) : World :=
  mkWorld st (promises w) (settled w) (awaitingNotifier w) (nextPromise w)
          (location w) (trace w ++ [EvSetLoginState st]).

Definition set_promises (q : list Waiter) (w : World) : World :=
  mkWorld (loginState w) q (settled w) (awaitingNotifier w) (nextPromise w)
          (location w) (trace w).

Definition set_awaitingNotifier (l : list PromiseId) (w : World) : World :=
  mkWorld (loginState w) (promises w) (settled w) l (nextPromise w)
          (location w) (trace w).

Definition set_location (url : string) (w : World) : World :=
  mkWorld (loginState w) (promises w) (settled w) (awaitingNotifier w) (nextPromise w)
          url (trace w ++ [EvSetLocation url]).

Definition log (evs : list Event) (w : World) : World :=
  mkWorld (loginState w) (promises w) (settled w) (awaitingNotifier w) (nextPromise w)
          (location w) (trace w ++ evs).

(** [new Promise(...)]: the next allocation number. *)
Definition new_promise (w : World) : PromiseId * World :=
  (nextPromise w,
   mkWorld (loginState w) (promises w) (settled w) (awaitingNotifier w)
           (S (nextPromise w)) (location w) (trace w)).

(** [resolve(v)] and [reject(reason)]: a promise settles once. *)
Definition settle (p : PromiseId) (s : Settlement) (w : World) : World :=
  match settled w !! p with
  | Some _ => w
  | None =>
      mkWorld (loginState w) (promises w) (<[p := s]> (settled w)) (awaitingNotifier w)
              (nextPromise w) (location w) (trace w)
  end.

(** [const loginState = ref({loggedIn: false, needsProvided: []})], an
    empty queue, no promise yet. *)
Definition initial_world (href : string) : World :=
  mkWorld (mkState false (Some []) []) [] ∅ [] 0%nat href [].

(** ** The functions returned by [usePopupLogin] *)

Section UsePopupLogin.

Variable options : LoginOptions.

(** [normalizeUrl] of [./url] and the browser's [URL]: [buildUrl u base k v]
    is [new URL(u, base)] with [searchParams.append(k, v)], as a string. *)
Variable normalizeUrl : string -> string.
Variable buildUrl : string -> string -> string -> string -> string.

Variable call_need : FnId -> AuthenticationState -> list Need -> JsValue -> bool.

(** The handler passed to [popupFailedNotifier().then(...)], run with what
    the notifier resolved to. *)
Definition handleFailedLoginPopup_then (redirectionOk : bool) (reject : PromiseId)
           (w : World) : World :=
  if negb redirectionOk then
    settle reject
           (Rejected "Could not open popup window and redirection has not been allowed") w
  else
    let redirectionUrl :=
      buildUrl (loginUrl options) (location w) (nextQueryParam options)
               (match redirectionCompleteUrl options with
                | Some u => normalizeUrl u
                | None => location w
                end) in
    set_location redirectionUrl w.

(** [_handleFailedLoginPopup(reject)]: the notifier is called, its handler
    waits for the notifier's promise. *)
Definition _handleFailedLoginPopup (reject : PromiseId) (w : World) : World :=
  set_awaitingNotifier (awaitingNotifier w ++ [reject]) (log [EvPopupFailedNotifier] w).

(** The notifier's promise of the [login()] call that returned [p] resolves
    to [redirectionOk]: the handler runs, once. *)
Definition notifier_resolved (p : PromiseId) (redirectionOk : bool) (w : World) : World :=
  if bool_decide (p ∈ awaitingNotifier w) then
    handleFailedLoginPopup_then redirectionOk p
      (set_awaitingNotifier (filter (λ q, q ≠ p) (awaitingNotifier w)) w)
  else w.

(** [check(localStateSufficient = false)]; [resp] is the body that the
    state endpoint answers with when it is asked. *)
Definition check (localStateSufficient : bool) (resp : AuthenticationState)
           (w : World) : AuthenticationState * World :=
  if loggedIn (loginState w) && localStateSufficient then (loginState w, w)
  else
    let w := log [EvGet (stateUrl options)] w in
    let w :=
      match loginStateTransformer options with
      | Some transformer => set_loginState (transformer resp) w
      | None => set_loginState resp w
      end in
    (loginState w, w).

(** [login()]; [currentPopup] is what [window.open] returned. *)
Definition login (currentPopup : option Window) (w : World) : PromiseId * World :=
  let loginUrl :=
    buildUrl (loginUrl options) (location w) (nextQueryParam options)
             (normalizeUrl (completeUrl options)) in
  let w := log [EvWindowOpen loginUrl] w in
  let '(p, w) := new_promise w in
  match currentPopup with
  | None => (p, _handleFailedLoginPopup p w)
  | Some _ =>
      (* splice(0, 0, () => check()) *)
      let w := set_promises (RefreshWaiter :: promises w) w in
      (* push(msg => resolve(loginState.value.loggedIn)) *)
      let w := set_promises (promises w ++ [LoginResolver p]) w in
      (p, w)
  end.

Definition showLoginPopup (extra : JsValue) (w : World) : PromiseId * World :=
  let '(p, w) := new_promise w in
  let w := set_promises (promises w ++ [PopupResolver p]) w in
  (p, log [EvNoAccessNotifier (loginState w) extra] w).

(** [p(msg)] for a queued [p], awaited. *)
Definition invoke (p : Waiter) (msg : LoginMessage) (resp : AuthenticationState)
           (w : World) : World :=
  match p with
  | RefreshWaiter => snd (check false resp w)
  | LoginResolver q => settle q (Fulfilled (PVLoggedIn (loggedIn (loginState w)))) w
  | PopupResolver q => settle q (Fulfilled (PVMessage msg)) w
  end.

(** The inner [async function notify()] of the message handler:
    [for (const p of promises) { await p(msg) }]. *)
Fixpoint notify (promises : list Waiter) (msg : LoginMessage)
         (resp : AuthenticationState) (w : World) : World :=
  match promises with
  | [] => w
  | p :: rest => notify rest msg resp (invoke p msg resp w)
  end.

(** [loginData.channel.onmessage]: the queue is taken and emptied, and
    [notify] is declared; the handler ends there, without a call of it. *)
Definition onmessage (msg : LoginMessage) (w : World) : World :=
  let promises := promises w in
  let w := set_promises [] w in
  let notify := fun resp => notify promises msg resp w in
  w.

(** [loginAndAuthorize] runs up to its return or to
    [await showLoginPopup(extra)], where it holds [authState] and waits
    for the promise [p]. *)
Inductive LoginAndAuthorize : Type :=
| LaaReturned (result : bool)
| LaaAwaitingPopup (p : PromiseId) (authState : AuthenticationState).

Definition run_authorize (state : AuthenticationState)
           (needsRequired needsProvided : option (list Need)) (extra : JsValue)
           (w : World) : bool * World :=
  let '(b, calls) := authorize call_need state needsRequired needsProvided extra in
  (b, log (map EvNeedCall calls) w).

Definition loginAndAuthorize (needsRequired : option (list Need)) (extra : JsValue)
           (resp : AuthenticationState) (w : World) : LoginAndAuthorize * World :=
  let '(authState, w) := check true resp w in
  if negb (loggedIn authState) then
    let '(p, w) := showLoginPopup extra w in
    (LaaAwaitingPopup p authState, w)
  else
    let '(b, w) := run_authorize authState needsRequired (needsProvided authState) extra w in
    (LaaReturned b, w).

(** The rest of [loginAndAuthorize], from the point after the await. *)
Definition loginAndAuthorize_resume (authState : AuthenticationState)
           (needsRequired : option (list Need)) (extra : JsValue)
           (w : World) : bool * World :=
  if negb (loggedIn (loginState w)) then (false, w)
  else run_authorize authState needsRequired (needsProvided authState) extra w.

(** A suspended call goes on when, and only when, its promise is
    fulfilled. *)
Definition loginAndAuthorize_poll (t : LoginAndAuthorize)
           (needsRequired : option (list Need)) (extra : JsValue)
           (w : World) : option (bool * World) :=
  match t with
  | LaaReturned b => Some (b, w)
  | LaaAwaitingPopup p authState =>
      match settled w !! p with
      | Some (Fulfilled _) => Some (loginAndAuthorize_resume authState needsRequired extra w)
      | _ => None
      end
  end.

(** What can happen to the module from outside: a message on the channel,
    a call of an exported function, a notifier's answer. *)
Inductive Action : Type :=
| AMessage (msg : LoginMessage)
| ALogin (currentPopup : option Window)
| ANotifierResolved (p : PromiseId) (redirectionOk : bool)
| ACheck (localStateSufficient : bool) (resp : AuthenticationState)
| AAuthorize (state : AuthenticationState) (needsRequired needsProvided : option (list Need))
             (extra : JsValue)
| ALoginAndAuthorize (needsRequired : option (list Need)) (extra : JsValue)
                     (resp : AuthenticationState)
| AResume (t : LoginAndAuthorize) (needsRequired : option (list Need)) (extra : JsValue).

Definition step (a : Action) (w : World) : World :=
  match a with
  | AMessage msg => onmessage msg w
  | ALogin currentPopup => snd (login currentPopup w)
  | ANotifierResolved p redirectionOk => notifier_resolved p redirectionOk w
  | ACheck localStateSufficient resp => snd (check localStateSufficient resp w)
  | AAuthorize state needsRequired needsProvided extra =>
      snd (run_authorize state needsRequired needsProvided extra w)
  | ALoginAndAuthorize needsRequired extra resp =>
      snd (loginAndAuthorize needsRequired extra resp w)
  | AResume t needsRequired extra =>
      match loginAndAuthorize_poll t needsRequired extra w with
      | Some (_, w') => w'
      | None => w
      end
  end.

Fixpoint run (actions : list Action) (w : World) : World :=
  match actions with
  | [] => w
  | a :: rest => run rest (step a w)
  end.

End UsePopupLogin.


(** ** Invariants of the handshake state *)

(** Identifiers not yet allocated are used nowhere. *)
Definition fresh (w : World) : Prop :=
  (forall p, (nextPromise w <= p)%nat -> settled w !! p = None) /\
  (forall p, p ∈ awaitingNotifier w -> (p < nextPromise w)%nat) /\
  (forall p, LoginResolver p ∈ promises w \/ PopupResolver p ∈ promises w ->
             (p < nextPromise w)%nat).

(** No promise has been fulfilled. *)
Definition never_fulfilled (w : World) : Prop :=
  forall p v, settled w !! p <> Some (Fulfilled v).

(** The promise [p] is pending, and no handler holds its reject function. *)
Definition pending (p : PromiseId) (w : World) : Prop :=
  settled w !! p = None /\ (p ∉ awaitingNotifier w) /\ (p < nextPromise w)%nat.

(** How one world follows another: promises are only allocated upwards, a
    promise only gets settled by a rejection and only if a notifier's handler
    held it or it is new, and new entries of the two queues are about new
    promises. *)
Record Evolves (w w' : World) : Prop := mkEvolves {
  ev_next : (nextPromise w <= nextPromise w')%nat;
  ev_settled : forall p,
      settled w' !! p = settled w !! p \/
      ((exists r, settled w' !! p = Some (Rejected r)) /\
       (p ∈ awaitingNotifier w \/ (nextPromise w <= p < nextPromise w')%nat));
  ev_awaiting : forall p,
      p ∈ awaitingNotifier w' ->
      p ∈ awaitingNotifier w \/ (nextPromise w <= p < nextPromise w')%nat;
  ev_waiters : forall p,
      LoginResolver p ∈ promises w' \/ PopupResolver p ∈ promises w' ->
      (LoginResolver p ∈ promises w \/ PopupResolver p ∈ promises w) \/
      (nextPromise w <= p < nextPromise w')%nat
}.

(** ** Sample data *)

Definition sample_options : LoginOptions :=
  mkOptions "/auth/login" "/auth/logout" "/auth/complete" None "/auth/state" "next" None.

Definition sample_buildUrl (u base k v : string) : string :=
  base +:+ u +:+ "?" +:+ k +:+ "=" +:+ v.

Definition sample_normalizeUrl (u : string) : string := "https://localhost:8080" +:+ u.

(** A function need that is truthy for the superuser only: need number 2
    looks at the user field [superuser], the others answer no. *)
Definition sample_call_need (f : FnId) (state : AuthenticationState)
           (provided : list Need) (extra : JsValue) : bool :=
  match f with
  | 2%nat => match get "superuser" (userFields state) with
             | Some (JBool true) => true
             | _ => false
             end
  | _ => false
  end.

Definition sample_admin : AuthenticationState :=
  mkState true (Some []) [("name", JStr "Administrator"); ("superuser", JBool true)].

Definition sample_message : LoginMessage :=
  mkMsg "login" "success" "Sample ok/error message from the auth server".

Definition sample_href : string := "https://localhost:8080/".

(** The state that the development server answers with before a login. *)
Definition sample_anonymous : AuthenticationState := mkState false None [].

(** A world in which the administrator is logged in. *)
Definition sample_logged_in_world : World :=
  mkWorld sample_admin [] ∅ [] 0%nat sample_href [].

(** ** Further definitions: the calls of the matcher, the shape of the queue *)

(** The invocations of the function needs of a list, in its order. *)
Definition function_calls (state : AuthenticationState) (needsProvided : list Need)
           (extra : JsValue) (needs : list Need) : list NeedCall :=
  flat_map (fun n => match n with
                     | FunctionNeed f => [mkCall f state needsProvided extra]
                     | _ => []
                     end) needs.

Definition is_function_need (n : Need) : bool :=
  match n with
  | FunctionNeed _ => true
  | _ => false
  end.

(** The promise that a queued closure resolves, if it resolves one. *)
Definition resolver_id (x : Waiter) : option nat :=
  match x with
  | RefreshWaiter => None
  | LoginResolver p => Some p
  | PopupResolver p => Some p
  end.

Fixpoint resolver_ids (q : list Waiter) : list nat :=
  match q with
  | [] => []
  | x :: rest =>
      match resolver_id x with
      | Some p => p :: resolver_ids rest
      | None => resolver_ids rest
      end
  end.

Fixpoint count_login_resolvers (q : list Waiter) : nat :=
  match q with
  | [] => 0%nat
  | LoginResolver _ :: rest => S (count_login_resolvers rest)
  | _ :: rest => count_login_resolvers rest
  end.

(** What one action does to the handshake state: nothing, or one of the
    five writes of the module. *)
Inductive Effect (a : Action) (w w' : World) : Prop :=
| Eff_same :
    promises w' = promises w -> settled w' = settled w ->
    awaitingNotifier w' = awaitingNotifier w -> nextPromise w' = nextPromise w ->
    Effect a w w'
| Eff_drained :
    promises w' = [] -> settled w' = settled w ->
    awaitingNotifier w' = awaitingNotifier w -> nextPromise w' = nextPromise w ->
    Effect a w w'
| Eff_login :
    promises w' = RefreshWaiter :: promises w ++ [LoginResolver (nextPromise w)] ->
    settled w' = settled w ->
    awaitingNotifier w' = awaitingNotifier w -> nextPromise w' = S (nextPromise w) ->
    Effect a w w'
| Eff_popup :
    promises w' = promises w ++ [PopupResolver (nextPromise w)] ->
    settled w' = settled w ->
    awaitingNotifier w' = awaitingNotifier w -> nextPromise w' = S (nextPromise w) ->
    Effect a w w'
| Eff_blocked :
    promises w' = promises w -> settled w' = settled w ->
    awaitingNotifier w' = awaitingNotifier w ++ [nextPromise w] ->
    nextPromise w' = S (nextPromise w) ->
    Effect a w w'
| Eff_answered p redirectionOk :
    a = ANotifierResolved p redirectionOk ->
    p ∈ awaitingNotifier w ->
    promises w' = promises w ->
    awaitingNotifier w' = filter (λ q, q ≠ p) (awaitingNotifier w) ->
    nextPromise w' = nextPromise w ->
    (settled w' = settled w \/
     (redirectionOk = false /\ settled w !! p = None /\
      settled w' =
        <[p := Rejected "Could not open popup window and redirection has not been allowed"]>
          (settled w))) ->
    Effect a w w'.

(** The queue has its refresh waiters first, as many as it has resolvers of
    [login()]; its resolvers are about distinct promises, all pending and none
    held by a notifier's handler. *)
Definition queue_inv (w : World) : Prop :=
  fresh w /\
  (exists k rs, promises w = replicate k RefreshWaiter ++ rs /\
                (RefreshWaiter ∉ rs) /\ k = count_login_resolvers rs) /\
  NoDup (resolver_ids (promises w)) /\
  (forall p, p ∈ resolver_ids (promises w) ->
             settled w !! p = None /\ (p ∉ awaitingNotifier w)).

(** ** [usePopupLogin]: the one-time initialisation *)

Definition DEFAULT_LOGIN_URL : string := "/auth/login".
Definition DEFAULT_COMPLETE_URL : string := "/auth/complete".
Definition DEFAULT_LOGOUT_URL : string := "/auth/logout".
Definition DEFAULT_STATE_URL : string := "/auth/state".
Definition DEFAULT_NEXT_QUERY_PARAM : string := "next".

(** A notifier is user code, named here by a number; the fallback of the
    popup-failed notifier logs to the console and answers true. *)
Inductive PopupFailedNotifier : Type :=
| UserPopupFailedNotifier (id : nat)
| ConsoleErrorNotifier.

(** The argument of [usePopupLogin]: every field may be missing. *)
Record UsePopupLoginOptions : Type := mkUserOptions {
  opt_loginUrl : option string;
  opt_logoutUrl : option string;
  opt_completeUrl : option string;
  opt_redirectionCompleteUrl : option string;
  opt_stateUrl : option string;
  opt_nextQueryParam : option string;
  opt_loginStateTransformer : option (AuthenticationState -> AuthenticationState);
  opt_popupFailedNotifier : option nat;
  opt_noAccessNotifier : option nat
}.

(** The module's [loginOptions] and [loginData.channel], null until the
    first call. *)
Record ModuleState : Type := mkModule {
  m_loginUrl : option string;
  m_logoutUrl : option string;
  m_completeUrl : option string;
  m_redirectionCompleteUrl : option string;
  m_stateUrl : option string;
  m_nextQueryParam : option string;
  m_loginStateTransformer : option (AuthenticationState -> AuthenticationState);
  m_popupFailedNotifier : option PopupFailedNotifier;
  m_noAccessNotifier : option nat;
  m_channel : option string
}.

Definition uninitialised : ModuleState :=
  mkModule None None None None None None None None None None.

(** A string is truthy unless it is missing or empty. *)
Definition truthy (x : option string) : bool :=
  match x with
  | Some s => negb (String.eqb s "")
  | None => false
  end.

(** [x || d] on strings. *)
Definition or_default (x : option string) (d : string) : string :=
  match x with
  | Some s => if String.eqb s "" then d else s
  | None => d
  end.

(** The initialising part of [usePopupLogin]. *)
Definition usePopupLogin (o : UsePopupLoginOptions) (m : ModuleState) : ModuleState :=
  if negb (truthy (m_loginUrl m)) then
    mkModule
      (Some (or_default (opt_loginUrl o) DEFAULT_LOGIN_URL))
      (Some (or_default (opt_logoutUrl o) DEFAULT_LOGOUT_URL))
      (Some (or_default (opt_completeUrl o) DEFAULT_COMPLETE_URL))
      (if truthy (opt_redirectionCompleteUrl o) then opt_redirectionCompleteUrl o else None)
      (Some (or_default (opt_stateUrl o) DEFAULT_STATE_URL))
      (Some (or_default (opt_nextQueryParam o) DEFAULT_NEXT_QUERY_PARAM))
      (opt_loginStateTransformer o)
      (Some (match opt_popupFailedNotifier o with
             | Some id => UserPopupFailedNotifier id
             | None => ConsoleErrorNotifier
             end))
      (opt_noAccessNotifier o)
      (Some "popup-login-channel")
  else m.

(** ** [popupLoginPlugin]: the navigation guard *)

(** [to.meta.authorization], when the route has one. *)
Record RouteAuthorization : Type := mkAuthorization {
  meta_needsRequired : option (list Need)
}.

(** Where the guard stands: it has called [next()], it is suspended inside
    [loginAndAuthorize] at the await of the login popup (and goes on only if
    that call is resumed), or its loop is still going round after the given
    number of rounds. *)
Inductive Navigation : Type :=
| NavProceeded (w : World)
| NavAwaitingLogin (p : nat) (authState : AuthenticationState) (w : World)
| NavRetrying (w : World).

Section PopupLoginPlugin.

Variable options : LoginOptions.
Variable call_need : nat -> AuthenticationState -> list Need -> JsValue -> bool.

(** The [while (true)] loop of the guard, for at most [rounds] rounds. *)
Fixpoint beforeEach_loop (rounds : nat) (needsRequired : list Need) (to : JsValue)
         (resp : AuthenticationState) (w : World) : Navigation :=
  match rounds with
  | O => NavRetrying w
  | S rounds =>
      match loginAndAuthorize options call_need (Some needsRequired)
                              (JObj [("route", to)]) resp w with
      | (LaaReturned true, w) => NavProceeded w
      | (LaaReturned false, w) => beforeEach_loop rounds needsRequired to resp w
      | (LaaAwaitingPopup p authState, w) => NavAwaitingLogin p authState w
      end
  end.

(** The guard from the point where its suspended [loginAndAuthorize] call
    is resumed, in the world [w] of that moment. *)
Definition beforeEach_resume (rounds : nat) (needsRequired : list Need) (to : JsValue)
           (resp : AuthenticationState) (authState : AuthenticationState)
           (w : World) : Navigation :=
  match loginAndAuthorize_resume call_need authState (Some needsRequired)
                                 (JObj [("route", to)]) w with
  | (true, w) => NavProceeded w
  | (false, w) => beforeEach_loop rounds needsRequired to resp w
  end.

(** The handler given to [router.beforeEach]. *)
Definition beforeEach (rounds : nat) (authorization : option RouteAuthorization)
           (to : JsValue) (resp : AuthenticationState) (w : World) : Navigation :=
  match authorization with
  | None => NavProceeded w
  | Some a => beforeEach_loop rounds (or_empty (meta_needsRequired a)) to resp w
  end.

End PopupLoginPlugin.

(** * Properties *)

(** ** Structural containment *)

(** Induction on values that reaches the fields of an object. *)
Lemma JsValue_fields_ind (P : JsValue -> Prop) :
  P JNull ->
  (forall b, P (JBool b)) ->
  (forall z, P (JNum z)) ->
  (forall s, P (JStr s)) ->
  (forall fields, Forall (fun kv => P (snd kv)) fields -> P (JObj fields)) ->
  forall v, P v.
Proof.
  intros Hnull Hbool Hnum Hstr Hobj.
  fix IH 1.
  intros [ | b | z | s | fields ];
    [ exact Hnull | apply Hbool | apply Hnum | apply Hstr | apply Hobj ].
  induction fields as [ | [k v] rest IHrest ]; constructor;
    [ apply IH | exact IHrest ].
Qed.

Lemma strict_eq_refl_prim (v : JsValue) :
  (forall fields, v <> JObj fields) -> strict_eq v v = true.
Proof.
  destruct v as [ | b | z | s | fields ]; simpl; intros Hprim.
  - reflexivity.
  - by destruct b.
  - apply Z.eqb_refl.
  - apply String.eqb_refl.
  - by destruct (Hprim fields).
Qed.

Lemma strict_eq_true (a b : JsValue) : strict_eq a b = true -> a = b.
Proof.
  destruct a, b; simpl; try discriminate; intros H.
  - reflexivity.
  - apply Bool.eqb_prop in H. by subst.
  - apply Z.eqb_eq in H. by subst.
  - apply String.eqb_eq in H. by subst.
Qed.

(** The partial comparison decides containment. *)
Lemma baseIsEqualPartial_Contains (sv : JsValue) :
  forall ov, baseIsEqualPartial sv ov = true <-> Contains ov sv.
Proof.
  induction sv as [ | b | z | s | sfs IH ] using JsValue_fields_ind; intros ov.
  1-4: split;
    [ intros H;
      match type of H with
      | baseIsEqualPartial ?a ?b = true => pose proof (strict_eq_true a b H) as E
      end; subst ov; constructor
    | intros H; inversion H; subst; by apply strict_eq_refl_prim ].
  split.
  - destruct ov as [ | | | | ofs ]; simpl; try discriminate.
    intros H. constructor. intros k v Hin.
    rewrite forallb_forall in H. specialize (H _ Hin). simpl in H.
    destruct (get k ofs) as [ ov | ] eqn:Hget; [ | discriminate ].
    exists ov. split; [ reflexivity | ].
    rewrite Forall_forall in IH.
    apply (IH (k, v)); [ by apply list_elem_of_In | exact H ].
  - intros H. inversion H as [ | | | | ofs sfs' Hall ]; subst. simpl.
    apply forallb_forall. intros [k v] Hin.
    destruct (Hall _ _ Hin) as (ov' & Hget & Hc). rewrite Hget.
    rewrite Forall_forall in IH.
    apply (IH (k, v)); [ by apply list_elem_of_In | exact Hc ].
Qed.

Lemma isMatch_Contains (object source : Fields) :
  isMatch object source = true <-> Contains (JObj object) (JObj source).
Proof. apply baseIsEqualPartial_Contains. Qed.

(** ** The need matcher *)

Lemma indexOf_from_range (s : string) (l : list Need) :
  forall i, 0 <= i -> indexOf_from i s l = -1 \/ i <= indexOf_from i s l.
Proof.
  induction l as [ | n rest IH ]; simpl; intros i Hi; [ by left | ].
  destruct (match n with StringNeed t => String.eqb s t | _ => false end).
  - right. lia.
  - destruct (IH (i + 1)) as [ H | H ]; [ lia | by left | right; lia ].
Qed.

Lemma indexOf_from_found (s : string) (l : list Need) :
  forall i, 0 <= i -> (0 <=? indexOf_from i s l) = true <-> In (StringNeed s) l.
Proof.
  induction l as [ | n rest IH ]; simpl; intros i Hi.
  - split; [ intros H; apply Z.leb_le in H; lia | tauto ].
  - destruct n as [ t | f | o ].
    + destruct (String.eqb s t) eqn:E.
      * apply String.eqb_eq in E. subst t.
        split; [ by left | intros _; apply Z.leb_le; lia ].
      * apply String.eqb_neq in E. rewrite IH by lia.
        split; [ by right | intros [ H | H ]; [ congruence | exact H ] ].
    + rewrite IH by lia. split; [ by right | intros [ H | H ]; [ discriminate | exact H ] ].
    + rewrite IH by lia. split; [ by right | intros [ H | H ]; [ discriminate | exact H ] ].
Qed.

Lemma indexOf_found (s : string) (l : list Need) :
  (0 <=? indexOf s l) = true <-> In (StringNeed s) l.
Proof. apply indexOf_from_found. lia. Qed.

Lemma object_candidate_found (o : Fields) (l : list Need) :
  existsb (object_candidate o) l = true <->
  exists p, In (ObjectNeed p) l /\ Contains (JObj p) (JObj o).
Proof.
  rewrite existsb_exists. split.
  - intros (n & Hin & Hn). destruct n as [ t | f | p ]; simpl in Hn; try discriminate.
    exists p. split; [ exact Hin | by apply isMatch_Contains ].
  - intros (p & Hin & Hc). exists (ObjectNeed p).
    split; [ exact Hin | by apply isMatch_Contains ].
Qed.

Section NeedMatcherFacts.

Variable call_need : FnId -> AuthenticationState -> list Need -> JsValue -> bool.

(** The loop is a short-circuit OR of the per-need tests. *)
Lemma authorize_loop_result state provided extra required :
  fst (authorize_loop call_need state provided extra required) =
  existsb (need_satisfied call_need state provided extra) required.
Proof.
  induction required as [ | n rest IH ]; simpl; [ reflexivity | ].
  destruct n as [ s | f | o ]; simpl.
  - destruct (0 <=? indexOf s provided); [ reflexivity | exact IH ].
  - destruct (call_need f state provided extra); [ reflexivity | ].
    destruct (authorize_loop call_need state provided extra rest) as [b calls]. exact IH.
  - destruct (existsb (object_candidate o) provided); [ reflexivity | exact IH ].
Qed.

Lemma authorize_true_iff state required provided extra :
  fst (authorize call_need state required provided extra) = true <->
  exists n, In n (or_empty required) /\
            need_satisfied call_need state (or_empty provided) extra n = true.
Proof.
  unfold authorize. rewrite authorize_loop_result. apply existsb_exists.
Qed.

(** The calls made on a list of function needs none of which is truthy. *)
Lemma authorize_loop_all_falsy state provided extra fs :
  (forall g, In g fs -> call_need g state provided extra = false) ->
  authorize_loop call_need state provided extra (map FunctionNeed fs) =
  (false, map (fun g => mkCall g state provided extra) fs).
Proof.
  induction fs as [ | f rest IH ]; simpl; intros Hall; [ reflexivity | ].
  rewrite (Hall f) by (by left).
  rewrite IH by (intros g Hg; apply Hall; by right). reflexivity.
Qed.

(** The calls made up to the first truthy function need. *)
Lemma authorize_loop_first_truthy state provided extra pre f post :
  (forall g, In g pre -> call_need g state provided extra = false) ->
  call_need f state provided extra = true ->
  authorize_loop call_need state provided extra (map FunctionNeed (pre ++ f :: post)) =
  (true, map (fun g => mkCall g state provided extra) (pre ++ [f])).
Proof.
  induction pre as [ | g rest IH ]; simpl; intros Hpre Hf.
  - by rewrite Hf.
  - rewrite (Hpre g) by (by left).
    rewrite IH; [ reflexivity | intros h Hh; apply Hpre; by right | exact Hf ].
Qed.

(** C4: with an empty list of required needs [authorize] answers false,
    whatever the state, the provided needs and the extra context are; no
    function need is invoked. *)
Theorem authorize_empty_required state provided extra :
  authorize call_need state (Some []) provided extra = (false, []).
Proof. reflexivity. Qed.

(** C5, as amended: for a list of required needs that contains the string
    need [s], [authorize] answers true when [s] is among the provided needs;
    and when no other required need is satisfied ([s] alone is required, for
    one), it answers true exactly when [s] is among the provided needs. *)
Theorem authorize_string_need state required provided extra s :
  In (StringNeed s) required ->
  (In (StringNeed s) provided ->
   fst (authorize call_need state (Some required) (Some provided) extra) = true) /\
  ((forall n, In n required -> n <> StringNeed s ->
              need_satisfied call_need state provided extra n = false) ->
   (fst (authorize call_need state (Some required) (Some provided) extra) = true <->
    In (StringNeed s) provided)).
Proof.
  intros Hreq. split.
  - intros Hprov. apply authorize_true_iff. exists (StringNeed s).
    split; [ exact Hreq | by apply indexOf_found ].
  - intros Hothers. rewrite authorize_true_iff. simpl. split.
    + intros (n & Hn & Hsat).
      assert (n = StringNeed s \/ n <> StringNeed s) as [ -> | Hne ].
      { destruct n as [ t | f | o ]; [ | by right | by right ].
        destruct (decide (t = s)) as [ -> | Hts ]; [ by left | right; congruence ]. }
      * by apply indexOf_found.
      * rewrite (Hothers n Hn Hne) in Hsat. discriminate.
    + intros Hprov. exists (StringNeed s).
      split; [ exact Hreq | by apply indexOf_found ].
Qed.

(** C6: on required needs that are all functions, [authorize] answers true
    exactly when one of them is truthy on (state, provided needs, extra
    context); the functions are invoked in the order of the list up to and
    including the first truthy one, and none after it. *)
Theorem authorize_function_needs state fs provided extra :
  let result :=
    authorize call_need state (Some (map FunctionNeed fs)) provided extra in
  let invoked := map (fun g => mkCall g state (or_empty provided) extra) in
  (fst result = true <->
   exists f, In f fs /\ call_need f state (or_empty provided) extra = true) /\
  (forall pre f post,
      fs = pre ++ f :: post ->
      (forall g, In g pre -> call_need g state (or_empty provided) extra = false) ->
      call_need f state (or_empty provided) extra = true ->
      result = (true, invoked (pre ++ [f]))) /\
  ((forall g, In g fs -> call_need g state (or_empty provided) extra = false) ->
   result = (false, invoked fs)).
Proof.
  intros result invoked. subst result invoked. split; [ | split ].
  - rewrite authorize_true_iff. simpl. split.
    + intros (n & Hn & Hsat). apply in_map_iff in Hn as (f & <- & Hf). by exists f.
    + intros (f & Hf & Hsat). exists (FunctionNeed f).
      split; [ by apply in_map | exact Hsat ].
  - intros pre f post -> Hpre Hf. unfold authorize. simpl.
    by apply authorize_loop_first_truthy.
  - intros Hall. unfold authorize. simpl. by apply authorize_loop_all_falsy.
Qed.

(** C7: a required object need is satisfied exactly when some provided need
    that is an object (not a string, not a function) contains all its
    fields; {a: 1} is matched by [{a: 1, b: 2}] and not by [{a: 2}], and
    provided strings and functions are no candidates. *)
Theorem authorize_object_need state o provided extra :
  (fst (authorize call_need state (Some [ObjectNeed o]) (Some provided) extra) = true <->
   exists p, In (ObjectNeed p) provided /\ Contains (JObj p) (JObj o)) /\
  fst (authorize call_need state (Some [ObjectNeed [("a", JNum 1)]])
         (Some [ObjectNeed [("a", JNum 1); ("b", JNum 2)]]) extra) = true /\
  fst (authorize call_need state (Some [ObjectNeed [("a", JNum 1)]])
         (Some [ObjectNeed [("a", JNum 2)]]) extra) = false /\
  (forall ss gs,
      fst (authorize call_need state (Some [ObjectNeed o])
             (Some (map StringNeed ss ++ map FunctionNeed gs)) extra) = false).
Proof.
  split; [ | split; [ reflexivity | split; [ reflexivity | ] ] ].
  - rewrite authorize_true_iff. simpl. rewrite <- object_candidate_found. split.
    + intros (n & [ <- | [] ] & Hsat). exact Hsat.
    + intros Hsat. exists (ObjectNeed o). split; [ by left | exact Hsat ].
  - intros ss gs. apply not_true_is_false. rewrite authorize_true_iff. simpl.
    intros (n & [ <- | [] ] & Hsat). simpl in Hsat.
    apply object_candidate_found in Hsat as (p & Hin & _).
    apply in_app_iff in Hin as [ Hin | Hin ];
      apply in_map_iff in Hin as (x & Hx & _); discriminate.
Qed.

(** C10: an absent list of needs is an empty one.  With no required list
    [authorize] answers false; with no provided list a required string or
    object need is never satisfied, so that the answer is that of the
    function needs alone. *)
Theorem authorize_absent_lists state required provided extra :
  authorize call_need state None provided extra = (false, []) /\
  fst (authorize call_need state (Some required) None extra) =
    existsb (fun n => match n with
                      | FunctionNeed f => call_need f state [] extra
                      | _ => false
                      end) required /\
  (forall s, fst (authorize call_need state (Some [StringNeed s]) None extra) = false) /\
  (forall o, fst (authorize call_need state (Some [ObjectNeed o]) None extra) = false).
Proof.
  split; [ reflexivity | split; [ | split; reflexivity ] ].
  unfold authorize. simpl. rewrite authorize_loop_result.
  induction required as [ | n rest IH ]; simpl; [ reflexivity | ].
  rewrite IH. by destruct n.
Qed.

End NeedMatcherFacts.

(** ** The handshake state *)

Local Close Scope Z_scope.

Lemma Evolves_refl (w : World) : Evolves w w.
Proof. constructor; auto. Qed.

Lemma Evolves_trans (w1 w2 w3 : World) : Evolves w1 w2 -> Evolves w2 w3 -> Evolves w1 w3.
Proof.
  intros [N1 S1 A1 Q1] [N2 S2 A2 Q2]. constructor.
  - lia.
  - intros p. destruct (S2 p) as [ E2 | [R2 H2] ].
    + rewrite E2. destruct (S1 p) as [ E1 | [R1 H1] ]; [ by left | right ].
      split; [ exact R1 | destruct H1; [ by left | right; lia ] ].
    + right. split; [ exact R2 | ].
      destruct H2 as [ H2 | H2 ]; [ | right; lia ].
      destruct (A1 p H2); [ by left | right; lia ].
  - intros p H. destruct (A2 p H) as [ H2 | H2 ]; [ | right; lia ].
    destruct (A1 p H2); [ by left | right; lia ].
  - intros p H. destruct (Q2 p H) as [ H2 | H2 ]; [ | right; lia ].
    destruct (Q1 p H2); [ by left | right; lia ].
Qed.

(** A world that differs only in the login state, the location and the
    trace is an evolution. *)
Lemma Evolves_same_handshake (w w' : World) :
  promises w' = promises w -> settled w' = settled w ->
  awaitingNotifier w' = awaitingNotifier w -> nextPromise w' = nextPromise w ->
  Evolves w w'.
Proof.
  intros Hq Hs Ha Hn. constructor.
  - lia.
  - intros p. left. by rewrite Hs.
  - intros p. rewrite Ha. by left.
  - intros p. rewrite Hq. by left.
Qed.

Lemma fresh_Evolves (w w' : World) : fresh w -> Evolves w w' -> fresh w'.
Proof.
  intros (F1 & F2 & F3) [N S A Q]. repeat split.
  - intros p Hp. destruct (S p) as [ E | [ _ [ H | H ] ] ].
    + rewrite E. apply F1. lia.
    + apply F2 in H. lia.
    + lia.
  - intros p Hp. destruct (A p Hp) as [ H | H ]; [ apply F2 in H | ]; lia.
  - intros p Hp. destruct (Q p Hp) as [ H | H ]; [ apply F3 in H | ]; lia.
Qed.

Lemma never_fulfilled_Evolves (w w' : World) :
  never_fulfilled w -> Evolves w w' -> never_fulfilled w'.
Proof.
  intros NF [N S A Q] p v. destruct (S p) as [ E | [ [r R] _ ] ].
  - rewrite E. apply NF.
  - rewrite R. discriminate.
Qed.

Lemma pending_Evolves (p : PromiseId) (w w' : World) :
  pending p w -> Evolves w w' -> pending p w'.
Proof.
  intros (P1 & P2 & P3) [N S A Q]. repeat split.
  - destruct (S p) as [ E | [ _ [ H | H ] ] ]; [ by rewrite E | done | lia ].
  - intros H. destruct (A p H); [ done | lia ].
  - lia.
Qed.

Section UsePopupLoginFacts.

Variable options : LoginOptions.
Variable normalizeUrl : string -> string.
Variable buildUrl : string -> string -> string -> string -> string.
Variable call_need : FnId -> AuthenticationState -> list Need -> JsValue -> bool.

Lemma check_Evolves b resp w : Evolves w (snd (check options b resp w)).
Proof.
  unfold check.
  destruct (loggedIn (loginState w) && b); [ apply Evolves_refl | ].
  destruct (loginStateTransformer options); by apply Evolves_same_handshake.
Qed.

Lemma run_authorize_Evolves state required provided extra w :
  Evolves w (snd (run_authorize call_need state required provided extra w)).
Proof.
  unfold run_authorize.
  destruct (authorize call_need state required provided extra) as [b calls].
  by apply Evolves_same_handshake.
Qed.

Lemma onmessage_Evolves msg w : Evolves w (onmessage options msg w).
Proof.
  constructor; simpl; auto.
  intros p [ H | H ]; by apply elem_of_nil in H.
Qed.

Lemma showLoginPopup_Evolves extra w : Evolves w (snd (showLoginPopup extra w)).
Proof.
  constructor; simpl; auto.
  intros p [ H | H ]; apply elem_of_app in H as [ H | H ];
    try (left; by auto); apply list_elem_of_singleton in H; [ discriminate | ].
  right. injection H as ->. lia.
Qed.

Lemma login_Evolves currentPopup w :
  Evolves w (snd (login options normalizeUrl buildUrl currentPopup w)).
Proof.
  destruct currentPopup as [ popup | ]; constructor; simpl; auto.
  - intros p [ H | H ]; apply elem_of_cons in H as [ H | H ]; try discriminate;
      apply elem_of_app in H as [ H | H ].
    + left. by left.
    + apply list_elem_of_singleton in H. right. injection H as ->. lia.
    + left. by right.
    + apply list_elem_of_singleton in H. discriminate.
  - intros p H. apply elem_of_app in H as [ H | H ]; [ by left | ].
    apply list_elem_of_singleton in H. right. lia.
Qed.

Lemma notifier_resolved_Evolves p redirectionOk w :
  Evolves w (notifier_resolved options normalizeUrl buildUrl p redirectionOk w).
Proof.
  unfold notifier_resolved. case_bool_decide as Hp; [ | apply Evolves_refl ].
  assert (forall q, q ∈ filter (λ q, q ≠ p) (awaitingNotifier w) -> q ∈ awaitingNotifier w)
    as Hfilter by (intros q Hq; by apply list_elem_of_filter in Hq as [_ Hq]).
  unfold handleFailedLoginPopup_then. destruct redirectionOk; simpl.
  - constructor; simpl; auto.
  - unfold settle. simpl. destruct (settled w !! p) eqn:Hs; constructor; simpl; auto.
    intros q. destruct (decide (q = p)) as [ -> | Hne ].
    + right. rewrite lookup_insert_eq. split; [ by eexists | by left ].
    + left. by rewrite lookup_insert_ne.
Qed.

Lemma loginAndAuthorize_Evolves required extra resp w :
  Evolves w (snd (loginAndAuthorize options call_need required extra resp w)).
Proof.
  unfold loginAndAuthorize.
  pose proof (check_Evolves true resp w) as Hc.
  destruct (check options true resp w) as [authState w1]. simpl in Hc.
  destruct (negb (loggedIn authState)).
  - pose proof (showLoginPopup_Evolves extra w1) as Hs.
    destruct (showLoginPopup extra w1) as [p w2]. simpl in *.
    by apply Evolves_trans with w1.
  - pose proof (run_authorize_Evolves authState required (needsProvided authState) extra w1)
      as Ha.
    destruct (run_authorize call_need authState required (needsProvided authState) extra w1)
      as [b w2]. simpl in *.
    by apply Evolves_trans with w1.
Qed.

Lemma step_Evolves a w : Evolves w (step options normalizeUrl buildUrl call_need a w).
Proof.
  destruct a as [ msg | popup | p ok | b resp | st req prov extra | req extra resp
                | t req extra ]; simpl.
  - apply onmessage_Evolves.
  - apply login_Evolves.
  - apply notifier_resolved_Evolves.
  - apply check_Evolves.
  - apply run_authorize_Evolves.
  - apply loginAndAuthorize_Evolves.
  - destruct t as [ b | p authState ]; simpl; [ apply Evolves_refl | ].
    destruct (settled w !! p) as [ [ v | r ] | ]; try apply Evolves_refl.
    unfold loginAndAuthorize_resume.
    destruct (negb (loggedIn (loginState w))); [ apply Evolves_refl | ].
    pose proof (run_authorize_Evolves authState req (needsProvided authState) extra w) as Ha.
    by destruct (run_authorize call_need authState req (needsProvided authState) extra w).
Qed.

Lemma run_Evolves actions w :
  Evolves w (run options normalizeUrl buildUrl call_need actions w).
Proof.
  revert w. induction actions as [ | a rest IH ]; intros w; simpl.
  - apply Evolves_refl.
  - eapply Evolves_trans; [ apply step_Evolves | apply IH ].
Qed.

Lemma initial_world_fresh href : fresh (initial_world href).
Proof.
  split; [ | split ]; simpl.
  - intros p _. apply lookup_empty.
  - intros p H. by apply elem_of_nil in H.
  - intros p [ H | H ]; by apply elem_of_nil in H.
Qed.

Lemma initial_world_never_fulfilled href : never_fulfilled (initial_world href).
Proof. intros p v. simpl. by rewrite lookup_empty. Qed.

Lemma reachable_fresh href actions :
  fresh (run options normalizeUrl buildUrl call_need actions (initial_world href)).
Proof. eapply fresh_Evolves; [ apply initial_world_fresh | apply run_Evolves ]. Qed.

Lemma reachable_never_fulfilled href actions :
  never_fulfilled (run options normalizeUrl buildUrl call_need actions (initial_world href)).
Proof.
  eapply never_fulfilled_Evolves; [ apply initial_world_never_fulfilled | apply run_Evolves ].
Qed.

(** *** What [notify] would do *)

Lemma notify_app q1 q2 msg resp w :
  notify options (q1 ++ q2) msg resp w = notify options q2 msg resp (notify options q1 msg resp w).
Proof. revert w. induction q1 as [ | p rest IH ]; intros w; simpl; [ reflexivity | apply IH ]. Qed.

Lemma settle_lookup_other p q s w : p <> q -> settled (settle q s w) !! p = settled w !! p.
Proof.
  intros Hne. unfold settle. destruct (settled w !! q); [ reflexivity | ].
  simpl. by rewrite lookup_insert_ne.
Qed.

Lemma settle_lookup_settled p q s s' w :
  settled w !! p = Some s -> settled (settle q s' w) !! p = Some s.
Proof.
  intros Hs. unfold settle. destruct (settled w !! q) eqn:Hq; [ exact Hs | ].
  simpl. rewrite lookup_insert_ne; [ exact Hs | congruence ].
Qed.

Lemma settle_loginState q s w : loginState (settle q s w) = loginState w.
Proof. unfold settle. by destruct (settled w !! q). Qed.

Lemma check_settled b resp w : settled (snd (check options b resp w)) = settled w.
Proof.
  unfold check. destruct (loggedIn (loginState w) && b); [ reflexivity | ].
  by destruct (loginStateTransformer options).
Qed.

Lemma check_false_loginState resp w :
  loginState (snd (check options false resp w)) =
  match loginStateTransformer options with
  | Some transformer => transformer resp
  | None => resp
  end.
Proof. unfold check. rewrite andb_false_r. by destruct (loginStateTransformer options). Qed.

(** A settled promise stays as it is. *)
Lemma notify_settled q msg resp p s w :
  settled w !! p = Some s -> settled (notify options q msg resp w) !! p = Some s.
Proof.
  revert w. induction q as [ | x rest IH ]; intros w Hs; simpl; [ exact Hs | ].
  apply IH. destruct x as [ | r | r ]; simpl.
  - by rewrite check_settled.
  - by apply settle_lookup_settled.
  - by apply settle_lookup_settled.
Qed.

(** Waiters that are not about [p] leave it pending, and once the state is
    the fetched one it stays so. *)
Lemma notify_others q msg resp p w :
  let fetched := match loginStateTransformer options with
                 | Some transformer => transformer resp
                 | None => resp
                 end in
  LoginResolver p ∉ q -> PopupResolver p ∉ q ->
  settled w !! p = None -> loginState w = fetched ->
  settled (notify options q msg resp w) !! p = None /\
  loginState (notify options q msg resp w) = fetched.
Proof.
  intros fetched. revert w. induction q as [ | x rest IH ]; intros w HL HP Hs Hst; simpl.
  - by split.
  - apply not_elem_of_cons in HL as [HL1 HL2]. apply not_elem_of_cons in HP as [HP1 HP2].
    apply IH; try done; destruct x as [ | r | r ]; simpl.
    + by rewrite check_settled.
    + rewrite settle_lookup_other; [ exact Hs | congruence ].
    + rewrite settle_lookup_other; [ exact Hs | congruence ].
    + apply check_false_loginState.
    + by rewrite settle_loginState.
    + by rewrite settle_loginState.
Qed.

(** Run on a queue that starts with a refresh, [notify] resolves the login
    promise [p] with the refreshed [loggedIn]. *)
Lemma notify_resolves_login q1 q2 msg resp p w :
  let fetched := match loginStateTransformer options with
                 | Some transformer => transformer resp
                 | None => resp
                 end in
  LoginResolver p ∉ q1 -> PopupResolver p ∉ q1 -> settled w !! p = None ->
  settled (notify options (RefreshWaiter :: q1 ++ LoginResolver p :: q2) msg resp w) !! p =
  Some (Fulfilled (PVLoggedIn (loggedIn fetched))).
Proof.
  intros fetched HL HP Hs. simpl. rewrite notify_app. simpl.
  set (w1 := snd (check options false resp w)).
  assert (settled w1 !! p = None) as Hs1 by (subst w1; by rewrite check_settled).
  assert (loginState w1 = fetched) as Hst1.
  { subst w1. apply check_false_loginState. }
  destruct (notify_others q1 msg resp p w1 HL HP Hs1 Hst1) as [Hs2 Hst2].
  apply notify_settled. unfold settle. rewrite Hs2. simpl.
  rewrite lookup_insert_eq. fold fetched. by rewrite Hst2.
Qed.

(** *** The claims about the state store and the handshake *)

(** C8: [check(true)] on a cached logged-in state returns that state and
    does nothing else, no request included; [check(false)] requests the state
    endpoint, passes the body through the transformer if there is one,
    writes the result to the shared state and returns it, whatever the
    state was. *)
Theorem check_cached_or_fetched (resp : AuthenticationState) (w : World) :
  (loggedIn (loginState w) = true -> check options true resp w = (loginState w, w)) /\
  (let fetched := match loginStateTransformer options with
                  | Some transformer => transformer resp
                  | None => resp
                  end in
   let result := check options false resp w in
   fst result = fetched /\
   loginState (snd result) = fetched /\
   trace (snd result) = trace w ++ [EvGet (stateUrl options); EvSetLoginState fetched]).
Proof.
  split.
  - intros Hlogged. unfold check. by rewrite Hlogged.
  - unfold check. rewrite andb_false_r.
    destruct (loginStateTransformer options); simpl; by rewrite <- app_assoc.
Qed.

(** C9: when the popup is blocked and the popup-failed notifier resolves to
    false, the promise that [login()] returned is rejected with the message
    about the refused redirection, and the page does not navigate: the
    location is untouched and the only effects are the attempt to open the
    window and the call of the notifier. *)
Theorem login_blocked_redirect_declined (href : string) (history : list Action) :
  let w := run options normalizeUrl buildUrl call_need history (initial_world href) in
  let r := login options normalizeUrl buildUrl None w in
  let p := fst r in
  let w' := notifier_resolved options normalizeUrl buildUrl p false (snd r) in
  settled (snd r) !! p = None /\
  settled w' !! p =
    Some (Rejected "Could not open popup window and redirection has not been allowed") /\
  location w' = location w /\
  trace w' = trace w ++ [EvWindowOpen (buildUrl (loginUrl options) (location w)
                                                (nextQueryParam options)
                                                (normalizeUrl (completeUrl options)));
                         EvPopupFailedNotifier] /\
  promises w' = promises w.
Proof.
  intros w r p w'.
  destruct (reachable_fresh href history) as (F1 & F2 & F3). fold w in F1, F2, F3.
  assert (settled w !! nextPromise w = None) as Hnone by (apply F1; lia).
  subst w' p r. simpl. split; [ exact Hnone | ].
  unfold notifier_resolved. simpl.
  rewrite bool_decide_eq_true_2
    by (apply elem_of_app; right; by apply list_elem_of_singleton).
  unfold handleFailedLoginPopup_then, settle. simpl. rewrite Hnone. simpl.
  rewrite lookup_insert_eq. repeat split; try reflexivity. by rewrite <- app_assoc.
Qed.

(** C3, as amended: a [login()] whose popup opened puts the state-refresh
    waiter at the front of the queue and its own promise-resolving waiter at
    the end, whatever was queued before; so the refresh waiter stands before
    that resolver (and before every waiter queued earlier), and the resolver
    stands at the last index only. *)
Theorem login_queues_refresh_before_resolver (href : string) (history : list Action) :
  let w := run options normalizeUrl buildUrl call_need history (initial_world href) in
  let r := login options normalizeUrl buildUrl (Some PopupWindow) w in
  let p := fst r in
  promises (snd r) = RefreshWaiter :: promises w ++ [LoginResolver p] /\
  promises (snd r) !! 0 = Some RefreshWaiter /\
  (forall i, promises (snd r) !! i = Some (LoginResolver p) <-> i = S (length (promises w))).
Proof.
  intros w r p.
  destruct (reachable_fresh href history) as (F1 & F2 & F3). fold w in F1, F2, F3.
  subst p r. simpl. split; [ reflexivity | split; [ reflexivity | ] ].
  intros i. split.
  - destruct i as [ | j ]; simpl; [ discriminate | ].
    intros H. apply lookup_app_Some in H as [ H | [Hlen H] ].
    + apply list_elem_of_lookup_2 in H.
      assert (nextPromise w < nextPromise w) by (apply F3; by left). lia.
    + apply lookup_lt_Some in H as Hlt. simpl in Hlt. lia.
  - intros ->. simpl. by apply list_lookup_middle.
Qed.

(** C1, what the code does: after two [login()] calls whose popups opened,
    a message empties the queue and invokes none of the waiters; nothing is
    fetched or logged, the two promises are not resolved then and stay pending
    whatever happens later.  Had the handler called its [notify], both would
    have been resolved with the refreshed [loggedIn]. *)
Theorem message_drops_waiters (href : string) (history later : list Action)
        (msg : LoginMessage) (resp : AuthenticationState) :
  let w := run options normalizeUrl buildUrl call_need history (initial_world href) in
  let r1 := login options normalizeUrl buildUrl (Some PopupWindow) w in
  let r2 := login options normalizeUrl buildUrl (Some PopupWindow) (snd r1) in
  let w2 := snd r2 in
  let w3 := onmessage options msg w2 in
  let fetched := match loginStateTransformer options with
                 | Some transformer => transformer resp
                 | None => resp
                 end in
  promises w2 =
    RefreshWaiter :: RefreshWaiter :: promises w ++ [LoginResolver (fst r1); LoginResolver (fst r2)] /\
  promises w3 = [] /\
  trace w3 = trace w2 /\ settled w3 = settled w2 /\ loginState w3 = loginState w2 /\
  (let w4 := run options normalizeUrl buildUrl call_need later w3 in
   settled w4 !! fst r1 = None /\ settled w4 !! fst r2 = None) /\
  (let w4 := notify options (promises w2) msg resp w3 in
   settled w4 !! fst r1 = Some (Fulfilled (PVLoggedIn (loggedIn fetched))) /\
   settled w4 !! fst r2 = Some (Fulfilled (PVLoggedIn (loggedIn fetched)))).
Proof.
  intros w r1 r2 w2 w3 fetched.
  destruct (reachable_fresh href history) as (F1 & F2 & F3). fold w in F1, F2, F3.
  assert (forall p, nextPromise w <= p -> LoginResolver p ∉ promises w) as HL
    by (intros p Hp Hin; assert (p < nextPromise w) by (apply F3; by left); lia).
  assert (forall p, nextPromise w <= p -> PopupResolver p ∉ promises w) as HP
    by (intros p Hp Hin; assert (p < nextPromise w) by (apply F3; by right); lia).
  assert (forall p, nextPromise w <= p -> p ∉ awaitingNotifier w) as HA
    by (intros p Hp Hin; assert (p < nextPromise w) by (by apply F2); lia).
  assert (promises w2 = RefreshWaiter :: RefreshWaiter :: promises w
                          ++ [LoginResolver (fst r1); LoginResolver (fst r2)]) as Hq.
  { subst w2 r2 r1. simpl. by rewrite <- app_assoc. }
  split; [ exact Hq | ].
  do 4 (split; [ reflexivity | ]).
  split.
  - assert (pending (fst r1) w3 /\ pending (fst r2) w3) as [P1 P2].
    { subst w3 w2 r2 r1. unfold pending. simpl.
      repeat split; try (apply F1; lia); try (apply HA; lia); lia. }
    split.
    + eapply pending_Evolves; [ exact P1 | apply run_Evolves ].
    + eapply pending_Evolves; [ exact P2 | apply run_Evolves ].
  - intros w4. subst w4. rewrite Hq. split.
    + apply (notify_resolves_login (RefreshWaiter :: promises w)
                                   [LoginResolver (fst r2)] msg resp (fst r1) w3).
      * apply not_elem_of_cons. split; [ discriminate | apply HL; subst r1; simpl; lia ].
      * apply not_elem_of_cons. split; [ discriminate | apply HP; subst r1; simpl; lia ].
      * subst w3 w2 r2 r1. simpl. apply F1. lia.
    + change (RefreshWaiter :: RefreshWaiter :: promises w
                ++ [LoginResolver (fst r1); LoginResolver (fst r2)])
        with (RefreshWaiter :: (RefreshWaiter :: promises w)
                ++ [LoginResolver (fst r1); LoginResolver (fst r2)]).
      replace ((RefreshWaiter :: promises w) ++ [LoginResolver (fst r1); LoginResolver (fst r2)])
        with ((RefreshWaiter :: promises w ++ [LoginResolver (fst r1)])
                ++ LoginResolver (fst r2) :: [])
        by (simpl; by rewrite <- app_assoc).
      apply (notify_resolves_login (RefreshWaiter :: promises w ++ [LoginResolver (fst r1)])
                                   [] msg resp (fst r2) w3).
      * apply not_elem_of_cons. split; [ discriminate | ].
        apply not_elem_of_app. split; [ apply HL; subst r2 r1; simpl; lia | ].
        apply not_elem_of_cons. split; [ | apply not_elem_of_nil ].
        subst r2 r1. simpl. intros H. injection H. lia.
      * apply not_elem_of_cons. split; [ discriminate | ].
        apply not_elem_of_app. split; [ apply HP; subst r2 r1; simpl; lia | ].
        apply not_elem_of_cons. split; [ discriminate | apply not_elem_of_nil ].
      * subst w3 w2 r2 r1. simpl. apply F1. lia.
Qed.

(** C2, what the code does: on a logged-in state [loginAndAuthorize] returns
    the matcher's answer for the needs of the state that [check(true)] gave.
    On a state that is not logged in it queues a waiter through
    [showLoginPopup] and waits; a message then empties the queue without
    resolving the awaited promise, and the call never goes on: it returns
    neither false nor anything else, whatever happens later. *)
Theorem loginAndAuthorize_waits_forever (href : string) (history later : list Action)
        (needsRequired : option (list Need)) (extra : JsValue)
        (resp : AuthenticationState) (msg : LoginMessage) :
  let w := run options normalizeUrl buildUrl call_need history (initial_world href) in
  let authState := fst (check options true resp w) in
  let r := loginAndAuthorize options call_need needsRequired extra resp w in
  (loggedIn authState = true ->
   fst r = LaaReturned
             (fst (authorize call_need authState needsRequired (needsProvided authState) extra))) /\
  (loggedIn authState = false ->
   exists p,
     fst r = LaaAwaitingPopup p authState /\
     promises (snd r) = promises w ++ [PopupResolver p] /\
     promises (onmessage options msg (snd r)) = [] /\
     settled (onmessage options msg (snd r)) !! p = None /\
     loginAndAuthorize_poll call_need (fst r) needsRequired extra
       (run options normalizeUrl buildUrl call_need later (onmessage options msg (snd r)))
     = None).
Proof.
  intros w authState r.
  pose proof (reachable_fresh href history) as HF. fold w in HF.
  pose proof (reachable_never_fulfilled href history) as HN. fold w in HN.
  pose proof (check_Evolves true resp w) as Hc.
  pose proof (check_settled true resp w) as Hcs.
  assert (promises (snd (check options true resp w)) = promises w) as Hcq.
  { unfold check. destruct (loggedIn (loginState w) && true); [ reflexivity | ].
    by destruct (loginStateTransformer options). }
  assert (nextPromise (snd (check options true resp w)) = nextPromise w) as Hcn.
  { unfold check. destruct (loggedIn (loginState w) && true); [ reflexivity | ].
    by destruct (loginStateTransformer options). }
  subst r. unfold loginAndAuthorize. fold authState.
  destruct (check options true resp w) as [a w1] eqn:Hcheck. simpl in *. subst authState.
  split; intros Hlogged; rewrite Hlogged; simpl.
  - unfold run_authorize.
    by destruct (authorize call_need a needsRequired (needsProvided a) extra).
  - assert (never_fulfilled
              (run options normalizeUrl buildUrl call_need later
                   (onmessage options msg (snd (showLoginPopup extra w1))))) as HN'.
    { eapply never_fulfilled_Evolves; [ | apply run_Evolves ].
      eapply never_fulfilled_Evolves; [ | apply onmessage_Evolves ].
      eapply never_fulfilled_Evolves; [ | apply (showLoginPopup_Evolves extra w1) ].
      eapply never_fulfilled_Evolves; [ exact HN | exact Hc ]. }
    specialize (HN' (nextPromise w1)).
    exists (nextPromise w1). simpl in HN' |- *.
    split; [ reflexivity | split; [ by rewrite Hcq | split; [ reflexivity | split ] ] ].
    + rewrite Hcs. destruct HF as (F1 & _). apply F1. lia.
    + match goal with
      | |- match ?l with _ => _ end = None => destruct l as [ [ v | reason ] | ] eqn:Hl
      end; try reflexivity.
      by destruct (HN' v).
Qed.

End UsePopupLoginFacts.

(** ** The claims on sample data *)

(** The two scenarios of the spec: "admin" is required, and is or is not
    among the provided needs. *)
Lemma authorize_string_need_witness :
  fst (authorize sample_call_need sample_admin (Some [StringNeed "admin"])
         (Some [StringNeed "admin"; StringNeed "editor"]) JNull) = true /\
  fst (authorize sample_call_need sample_admin (Some [StringNeed "admin"])
         (Some []) JNull) = false.
Proof.
  split.
  - destruct (authorize_string_need sample_call_need sample_admin [StringNeed "admin"]
                [StringNeed "admin"; StringNeed "editor"] JNull "admin") as [Hsuff _].
    + simpl. by left.
    + apply Hsuff. simpl. by left.
  - destruct (authorize_string_need sample_call_need sample_admin [StringNeed "admin"]
                [] JNull "admin") as [_ Hiff].
    + simpl. by left.
    + apply not_true_is_false. intros Htrue. apply Hiff in Htrue.
      * destruct Htrue.
      * intros n [ <- | [] ] Hne. by destruct Hne.
Defined.

(** C5, as stated, fails: "admin" is required and is not provided, and
    [authorize] answers true, because "editor" is required and provided. *)
Lemma authorize_string_need_counterexample :
  In (StringNeed "admin") [StringNeed "admin"; StringNeed "editor"] /\
  ~ (fst (authorize sample_call_need sample_admin
            (Some [StringNeed "admin"; StringNeed "editor"])
            (Some [StringNeed "editor"]) JNull) = true <->
     In (StringNeed "admin") [StringNeed "editor"]).
Proof.
  split; [ by left | ].
  intros [Hto _]. destruct (Hto eq_refl) as [ H | [] ]. discriminate.
Qed.

(** Three function needs of which the second is truthy: the first two are
    invoked, the third is not. *)
Lemma authorize_function_needs_witness :
  authorize sample_call_need sample_admin (Some (map FunctionNeed [1; 2; 3]%nat))
            (Some [StringNeed "editor"]) JNull =
  (true, [mkCall 1 sample_admin [StringNeed "editor"] JNull;
          mkCall 2 sample_admin [StringNeed "editor"] JNull]).
Proof.
  pose proof (authorize_function_needs sample_call_need sample_admin [1; 2; 3]%nat
                (Some [StringNeed "editor"]) JNull) as H.
  cbv zeta in H. destruct H as (_ & Hfirst & _).
  apply (Hfirst [1%nat] 2%nat [3%nat]).
  - reflexivity.
  - intros g [ <- | [] ]. reflexivity.
  - reflexivity.
Defined.

(** The cache is trusted for the logged-in administrator. *)
Lemma check_cached_or_fetched_witness :
  check sample_options true sample_anonymous sample_logged_in_world =
  (sample_admin, sample_logged_in_world).
Proof.
  apply (proj1 (check_cached_or_fetched sample_options sample_anonymous
                  sample_logged_in_world)).
  reflexivity.
Defined.

(** C3, as stated, fails: a waiter of [showLoginPopup] is enqueued first and
    the two of [login()] after it, and the queue that the next message takes
    has the refresh waiter first; it is not the order of enqueueing.  (The
    message then settles no promise and leaves no trace.) *)
Lemma enqueue_order_counterexample :
  let r1 := showLoginPopup JNull (initial_world sample_href) in
  let r2 := login sample_options sample_normalizeUrl sample_buildUrl (Some PopupWindow)
                  (snd r1) in
  let w3 := onmessage sample_options sample_message (snd r2) in
  promises (snd r1) = [PopupResolver (fst r1)] /\
  promises (snd r2) = [RefreshWaiter; PopupResolver (fst r1); LoginResolver (fst r2)] /\
  promises (snd r2) <> promises (snd r1) ++ [RefreshWaiter; LoginResolver (fst r2)] /\
  settled w3 = ∅ /\ trace w3 = trace (snd r2).
Proof.
  split; [ reflexivity | split; [ reflexivity | split; [ discriminate | ] ] ].
  split; reflexivity.
Qed.

(** From the initial state, with a server that reports no login: the call
    waits, and still waits after a message and a refresh that logs in. *)
Lemma loginAndAuthorize_waits_forever_witness :
  let r := loginAndAuthorize sample_options sample_call_need (Some [StringNeed "admin"])
                             JNull sample_anonymous (initial_world sample_href) in
  exists p,
    fst r = LaaAwaitingPopup p sample_anonymous /\
    loginAndAuthorize_poll sample_call_need (fst r) (Some [StringNeed "admin"]) JNull
      (run sample_options sample_normalizeUrl sample_buildUrl sample_call_need
           [ACheck false sample_admin]
           (onmessage sample_options sample_message (snd r))) = None.
Proof.
  destruct (loginAndAuthorize_waits_forever sample_options sample_normalizeUrl
              sample_buildUrl sample_call_need sample_href [] [ACheck false sample_admin]
              (Some [StringNeed "admin"]) JNull sample_anonymous sample_message)
    as [_ Hwait].
  destruct (Hwait eq_refl) as (p & Hr & _ & _ & _ & Hpoll).
  exists p. split; [ exact Hr | exact Hpoll ].
Defined.

(** * Further properties *)

(** ** The need matcher *)

Section NeedMatcherMore.

Variable call_need : nat -> AuthenticationState -> list Need -> JsValue -> bool.

Lemma need_satisfied_more_provided state provided provided' extra n :
  is_function_need n = false ->
  (forall m, In m provided -> In m provided') ->
  need_satisfied call_need state provided extra n = true ->
  need_satisfied call_need state provided' extra n = true.
Proof.
  destruct n as [ s | f | o ]; simpl; intros Hfun Hsub Hsat.
  - apply indexOf_found. apply Hsub. by apply indexOf_found.
  - discriminate.
  - apply object_candidate_found. apply object_candidate_found in Hsat as (p & Hin & Hc).
    exists p. split; [ by apply Hsub | exact Hc ].
Qed.

(** The calls of the loop, for a list with a first satisfied need. *)
Lemma authorize_loop_first_satisfied state provided extra pre n post :
  (forall m, In m pre -> need_satisfied call_need state provided extra m = false) ->
  need_satisfied call_need state provided extra n = true ->
  authorize_loop call_need state provided extra (pre ++ n :: post) =
  (true, function_calls state provided extra (pre ++ [n])).
Proof.
  induction pre as [ | m rest IH ]; intros Hpre Hn.
  - simpl. destruct n as [ s | f | o ]; simpl in *; by rewrite Hn.
  - assert (need_satisfied call_need state provided extra m = false) as Hm
        by (apply Hpre; by left).
    assert (authorize_loop call_need state provided extra (rest ++ n :: post) =
            (true, function_calls state provided extra (rest ++ [n]))) as Hrest
        by (apply IH; [ intros x Hx; apply Hpre; by right | exact Hn ]).
    destruct m as [ s | f | o ]; simpl in *; rewrite Hm, Hrest; reflexivity.
Qed.

Lemma authorize_loop_none_satisfied state provided extra required :
  (forall m, In m required -> need_satisfied call_need state provided extra m = false) ->
  authorize_loop call_need state provided extra required =
  (false, function_calls state provided extra required).
Proof.
  induction required as [ | m rest IH ]; intros Hall; [ reflexivity | ].
  assert (need_satisfied call_need state provided extra m = false) as Hm
      by (apply Hall; by left).
  assert (authorize_loop call_need state provided extra rest =
          (false, function_calls state provided extra rest)) as Hrest
      by (apply IH; intros x Hx; apply Hall; by right).
  destruct m as [ s | f | o ]; simpl in *; rewrite Hm, Hrest; reflexivity.
Qed.

(** X1: required needs are alternatives.  The answer for two lists put
    together is the disjunction of the answers for each, so adding required
    needs never turns a yes into a no. *)
Theorem authorize_alternatives state required1 required2 provided extra :
  fst (authorize call_need state (Some (required1 ++ required2)) provided extra) =
  fst (authorize call_need state (Some required1) provided extra) ||
  fst (authorize call_need state (Some required2) provided extra).
Proof.
  unfold authorize. simpl. rewrite !authorize_loop_result. apply existsb_app.
Qed.

(** X2: the order of the required needs does not change the answer (it
    only changes which function needs get invoked). *)
Theorem authorize_order_irrelevant state required required' provided extra :
  Permutation required required' ->
  fst (authorize call_need state (Some required) provided extra) =
  fst (authorize call_need state (Some required') provided extra).
Proof.
  intros Hperm. unfold authorize. simpl. rewrite !authorize_loop_result.
  induction Hperm as [ | x l l' _ IH | x y l | l l' l'' _ IH1 _ IH2 ]; simpl.
  - reflexivity.
  - by rewrite IH.
  - by rewrite !orb_assoc, (orb_comm (need_satisfied _ _ _ _ y)).
  - by rewrite IH1.
Qed.

(** X3: when no required need is a function, more provided needs never
    revoke an authorization. *)
Theorem authorize_more_provided state required provided provided' extra :
  forallb (fun n => negb (is_function_need n)) required = true ->
  (forall m, In m provided -> In m provided') ->
  fst (authorize call_need state (Some required) (Some provided) extra) = true ->
  fst (authorize call_need state (Some required) (Some provided') extra) = true.
Proof.
  intros Hnofun Hsub. rewrite !authorize_true_iff. simpl.
  intros (n & Hin & Hsat). exists n. split; [ exact Hin | ].
  rewrite forallb_forall in Hnofun. specialize (Hnofun n Hin).
  apply negb_true_iff in Hnofun.
  by apply need_satisfied_more_provided with provided.
Qed.

(** X4: in any list of required needs, the function needs invoked are those
    that stand before the first satisfied need, and that need itself if it
    is a function; nothing after it is invoked.  When no need is satisfied,
    every function need is invoked once, in order. *)
Theorem authorize_invocations state required provided extra :
  (forall pre n post,
      required = pre ++ n :: post ->
      (forall m, In m pre ->
                 need_satisfied call_need state (or_empty provided) extra m = false) ->
      need_satisfied call_need state (or_empty provided) extra n = true ->
      authorize call_need state (Some required) provided extra =
      (true, function_calls state (or_empty provided) extra (pre ++ [n]))) /\
  ((forall m, In m required ->
              need_satisfied call_need state (or_empty provided) extra m = false) ->
   authorize call_need state (Some required) provided extra =
   (false, function_calls state (or_empty provided) extra required)).
Proof.
  split.
  - intros pre n post -> Hpre Hn. unfold authorize. simpl.
    by apply authorize_loop_first_satisfied.
  - intros Hall. unfold authorize. simpl. by apply authorize_loop_none_satisfied.
Qed.

(** X5: the matcher never looks at [loggedIn], nor at anything else of the
    state, unless a function need does: without function needs among the
    required ones, the answer is the same for every state, extra context and
    meaning of the function needs, and no function is invoked. *)
Theorem authorize_ignores_state
        (call_need' : nat -> AuthenticationState -> list Need -> JsValue -> bool)
        state state' required provided extra extra' :
  forallb (fun n => negb (is_function_need n)) required = true ->
  authorize call_need state (Some required) provided extra =
  authorize call_need' state' (Some required) provided extra' /\
  snd (authorize call_need state (Some required) provided extra) = [].
Proof.
  unfold authorize. simpl. generalize (or_empty provided) as prov. intros prov.
  induction required as [ | n rest IH ]; simpl; intros Hnofun; [ by split | ].
  apply andb_true_iff in Hnofun as [Hn Hrest]. apply negb_true_iff in Hn.
  destruct (IH Hrest) as [IH1 IH2].
  destruct n as [ s | f | o ]; simpl in *; try discriminate.
  - destruct (0 <=? indexOf s prov)%Z; by split.
  - destruct (existsb (object_candidate o) prov); by split.
Qed.

End NeedMatcherMore.

(** ** The handshake state, action by action *)

Lemma resolver_ids_app q1 q2 : resolver_ids (q1 ++ q2) = resolver_ids q1 ++ resolver_ids q2.
Proof.
  induction q1 as [ | x rest IH ]; simpl; [ reflexivity | ].
  destruct (resolver_id x); simpl; by rewrite IH.
Qed.

Lemma resolver_ids_refreshes k : resolver_ids (replicate k RefreshWaiter) = [].
Proof. induction k as [ | k IH ]; simpl; [ reflexivity | exact IH ]. Qed.

Lemma elem_of_resolver_ids p q :
  p ∈ resolver_ids q <-> LoginResolver p ∈ q \/ PopupResolver p ∈ q.
Proof.
  induction q as [ | x rest IH ]; simpl.
  - rewrite !elem_of_nil. tauto.
  - rewrite !elem_of_cons. destruct x as [ | r | r ]; simpl.
    + rewrite IH. split; [ tauto | ]. intros [ [ H | H ] | [ H | H ] ]; try discriminate; tauto.
    + rewrite elem_of_cons, IH. split.
      * intros [ -> | [ H | H ] ]; tauto.
      * intros [ [ H | H ] | [ H | H ] ]; try discriminate; try tauto.
        left. congruence.
    + rewrite elem_of_cons, IH. split.
      * intros [ -> | [ H | H ] ]; tauto.
      * intros [ [ H | H ] | [ H | H ] ]; try discriminate; try tauto.
        left. congruence.
Qed.

Lemma count_login_resolvers_app q1 q2 :
  count_login_resolvers (q1 ++ q2) = count_login_resolvers q1 + count_login_resolvers q2.
Proof.
  induction q1 as [ | x rest IH ]; simpl; [ reflexivity | ].
  destruct x; simpl; by rewrite IH.
Qed.

Lemma run_app options normalizeUrl buildUrl call_need l1 l2 w :
  run options normalizeUrl buildUrl call_need (l1 ++ l2) w =
  run options normalizeUrl buildUrl call_need l2
      (run options normalizeUrl buildUrl call_need l1 w).
Proof. revert w. induction l1 as [ | a rest IH ]; intros w; simpl; [ reflexivity | apply IH ]. Qed.

Section UsePopupLoginMore.

Variable options : LoginOptions.
Variable normalizeUrl : string -> string.
Variable buildUrl : string -> string -> string -> string -> string.
Variable call_need : nat -> AuthenticationState -> list Need -> JsValue -> bool.

(** The state store writes the login state and the trace, nothing else. *)
Lemma check_frame b resp w :
  let w' := snd (check options b resp w) in
  promises w' = promises w /\ settled w' = settled w /\
  awaitingNotifier w' = awaitingNotifier w /\ nextPromise w' = nextPromise w /\
  location w' = location w.
Proof.
  unfold check. destruct (loggedIn (loginState w) && b); [ done | ].
  by destruct (loginStateTransformer options).
Qed.

Lemma run_authorize_frame state required provided extra w :
  let w' := snd (run_authorize call_need state required provided extra w) in
  promises w' = promises w /\ settled w' = settled w /\
  awaitingNotifier w' = awaitingNotifier w /\ nextPromise w' = nextPromise w /\
  location w' = location w /\ loginState w' = loginState w.
Proof.
  unfold run_authorize.
  by destruct (authorize call_need state required provided extra).
Qed.

Lemma step_Effect a w : Effect a w (step options normalizeUrl buildUrl call_need a w).
Proof.
  destruct a as [ msg | popup | p ok | b resp | st req prov extra | req extra resp
                | t req extra ]; simpl.
  - by apply Eff_drained.
  - destruct popup as [ popup | ]; [ by apply Eff_login | by apply Eff_blocked ].
  - unfold notifier_resolved. case_bool_decide as Hp; [ | by apply Eff_same ].
    apply (Eff_answered _ _ _ p ok); try done.
    + unfold handleFailedLoginPopup_then, settle. destruct ok; simpl; [ done | ].
      by destruct (settled w !! p).
    + unfold handleFailedLoginPopup_then, settle. destruct ok; simpl; [ done | ].
      by destruct (settled w !! p).
    + unfold handleFailedLoginPopup_then, settle. destruct ok; simpl; [ done | ].
      by destruct (settled w !! p).
    + unfold handleFailedLoginPopup_then, settle. destruct ok; simpl; [ by left | ].
      destruct (settled w !! p) eqn:Hs; simpl; [ by left | by right ].
  - destruct (check_frame b resp w) as (H1 & H2 & H3 & H4 & _). by apply Eff_same.
  - destruct (run_authorize_frame st req prov extra w) as (H1 & H2 & H3 & H4 & _).
    by apply Eff_same.
  - unfold loginAndAuthorize.
    destruct (check_frame true resp w) as (H1 & H2 & H3 & H4 & _).
    destruct (check options true resp w) as [authState w1]. simpl in *.
    destruct (negb (loggedIn authState)).
    + apply Eff_popup; simpl; congruence.
    + destruct (run_authorize_frame authState req (needsProvided authState) extra w1)
        as (G1 & G2 & G3 & G4 & _).
      destruct (run_authorize call_need authState req (needsProvided authState) extra w1)
        as [b w2]. simpl in *. apply Eff_same; congruence.
  - destruct t as [ b | p authState ]; simpl; [ by apply Eff_same | ].
    destruct (settled w !! p) as [ [ v | r ] | ]; try by apply Eff_same.
    unfold loginAndAuthorize_resume.
    destruct (negb (loggedIn (loginState w))); [ by apply Eff_same | ].
    destruct (run_authorize_frame authState req (needsProvided authState) extra w)
      as (G1 & G2 & G3 & G4 & _).
    by apply Eff_same.
Qed.

Lemma queue_inv_step a w :
  queue_inv w -> queue_inv (step options normalizeUrl buildUrl call_need a w).
Proof.
  intros (HF & (k & rs & Hq & Hrs & Hk) & Hnodup & Hpending).
  pose proof (fresh_Evolves _ _ HF (step_Evolves options normalizeUrl buildUrl call_need a w))
    as HF'.
  destruct HF as (F1 & F2 & F3).
  assert (forall p, p ∈ resolver_ids (promises w) -> p < nextPromise w) as Hlt
    by (intros p Hp; apply F3; by apply elem_of_resolver_ids).
  split; [ exact HF' | ].
  destruct (step_Effect a w) as [ Eq Es Ea En | Eq Es Ea En | Eq Es Ea En | Eq Es Ea En
                                | Eq Es Ea En | p ok _ Hp Eq Ea En Es ].
  - rewrite Eq, Es, Ea. split; [ by exists k, rs | by split ].
  - rewrite Eq. split.
    { exists 0, []. split; [ done | split; [ apply not_elem_of_nil | done ] ]. }
    split; [ constructor | ].
    intros p Hp. by apply elem_of_nil in Hp.
  - rewrite Eq, Es, Ea. split; [ | split ].
    + exists (S k), (rs ++ [LoginResolver (nextPromise w)]). split; [ | split ].
      * rewrite Hq. simpl. by rewrite <- app_assoc.
      * intros H. apply elem_of_app in H as [ H | H ]; [ done | ].
        apply list_elem_of_singleton in H. discriminate.
      * rewrite count_login_resolvers_app. simpl. lia.
    + simpl. rewrite resolver_ids_app. simpl. apply NoDup_app. split; [ exact Hnodup | ].
      split; [ | apply NoDup_singleton ].
      intros p Hp Hp'. apply list_elem_of_singleton in Hp'. apply Hlt in Hp. lia.
    + simpl. rewrite resolver_ids_app. simpl. intros p Hp.
      apply elem_of_app in Hp as [ Hp | Hp ]; [ by apply Hpending | ].
      apply list_elem_of_singleton in Hp. subst p. split.
      * apply F1. lia.
      * intros H. apply F2 in H. lia.
  - rewrite Eq, Es, Ea. split; [ | split ].
    + exists k, (rs ++ [PopupResolver (nextPromise w)]). split; [ | split ].
      * rewrite Hq. by rewrite <- app_assoc.
      * intros H. apply elem_of_app in H as [ H | H ]; [ done | ].
        apply list_elem_of_singleton in H. discriminate.
      * rewrite count_login_resolvers_app. simpl. lia.
    + rewrite resolver_ids_app. simpl. apply NoDup_app. split; [ exact Hnodup | ].
      split; [ | apply NoDup_singleton ].
      intros p Hp Hp'. apply list_elem_of_singleton in Hp'. apply Hlt in Hp. lia.
    + rewrite resolver_ids_app. simpl. intros p Hp.
      apply elem_of_app in Hp as [ Hp | Hp ]; [ by apply Hpending | ].
      apply list_elem_of_singleton in Hp. subst p. split.
      * apply F1. lia.
      * intros H. apply F2 in H. lia.
  - rewrite Eq, Es, Ea. split; [ by exists k, rs | split; [ exact Hnodup | ] ].
    intros p Hp. destruct (Hpending p Hp) as [Hs Ha]. split; [ exact Hs | ].
    intros H. apply elem_of_app in H as [ H | H ]; [ done | ].
    apply list_elem_of_singleton in H. apply Hlt in Hp. lia.
  - rewrite Eq, Ea. split; [ by exists k, rs | split; [ exact Hnodup | ] ].
    intros q Hq'. destruct (Hpending q Hq') as [Hs Ha]. split.
    + destruct Es as [ -> | (_ & _ & ->) ]; [ exact Hs | ].
      rewrite lookup_insert_ne; [ exact Hs | ]. intros <-. done.
    + intros H. apply list_elem_of_filter in H as [_ H]. done.
Qed.

Lemma queue_inv_initial href : queue_inv (initial_world href).
Proof.
  split; [ apply initial_world_fresh | ]. simpl.
  split.
  { exists 0, []. split; [ done | split; [ apply not_elem_of_nil | done ] ]. }
  split; [ constructor | ].
  intros p Hp. by apply elem_of_nil in Hp.
Qed.

Lemma reachable_queue_inv href history :
  queue_inv (run options normalizeUrl buildUrl call_need history (initial_world href)).
Proof.
  induction history as [ | a rest IH ] using rev_ind; [ apply queue_inv_initial | ].
  rewrite run_app. simpl. by apply queue_inv_step.
Qed.

End UsePopupLoginMore.

(** ** Further properties of the handshake and of the state store *)

Section HandshakeProperties.

Variable options : LoginOptions.
Variable normalizeUrl : string -> string.
Variable buildUrl : string -> string -> string -> string -> string.
Variable call_need : nat -> AuthenticationState -> list Need -> JsValue -> bool.


(** A handler that waits for its notifier keeps waiting, and its promise
    stays pending, through every action but that notifier's answer. *)
Lemma awaiting_step p a w :
  (forall ok, a <> ANotifierResolved p ok) ->
  p ∈ awaitingNotifier w /\ settled w !! p = None ->
  p ∈ awaitingNotifier (step options normalizeUrl buildUrl call_need a w) /\
  settled (step options normalizeUrl buildUrl call_need a w) !! p = None.
Proof.
  intros Hother [Ha Hs].
  destruct (step_Effect options normalizeUrl buildUrl call_need a w)
    as [ _ Es Ea _ | _ Es Ea _ | _ Es Ea _ | _ Es Ea _ | _ Es Ea _ | q ok Hq _ _ Ea _ Es ];
    try (rewrite Es, Ea; by split).
  - rewrite Es, Ea. split; [ apply elem_of_app; by left | exact Hs ].
  - assert (p <> q) as Hne by (intros ->; by destruct (Hother ok)).
    rewrite Ea. split; [ by apply list_elem_of_filter | ].
    destruct Es as [ -> | (_ & _ & ->) ]; [ exact Hs | ].
    by rewrite lookup_insert_ne.
Qed.

(** X6: in every reachable state the queue consists of refresh waiters
    followed by resolvers, one refresh waiter for each queued resolver of a
    [login()] call; so a refresh waiter stands before every resolver in the
    queue, whoever enqueued it. *)
Theorem queue_refreshes_first (href : string) (history : list Action) :
  let w := run options normalizeUrl buildUrl call_need history (initial_world href) in
  (exists k rs, promises w = replicate k RefreshWaiter ++ rs /\
                (RefreshWaiter ∉ rs) /\ k = count_login_resolvers rs) /\
  (forall i j x, promises w !! i = Some RefreshWaiter ->
                 promises w !! j = Some x -> x <> RefreshWaiter -> i < j).
Proof.
  intros w.
  destruct (reachable_queue_inv options normalizeUrl buildUrl call_need href history)
    as (_ & (k & rs & Hq & Hrs & Hk) & _). fold w in Hq.
  split; [ by exists k, rs | ].
  intros i j x Hi Hj Hx. rewrite Hq in Hi, Hj.
  assert (i < k) as Hik.
  { destruct (decide (i < k)) as [ | Hge ]; [ done | ].
    rewrite lookup_app_r in Hi by (rewrite length_replicate; lia).
    apply list_elem_of_lookup_2 in Hi. done. }
  assert (k <= j) as Hkj.
  { destruct (decide (k <= j)) as [ | Hlt ]; [ done | ].
    rewrite lookup_app_l in Hj by (rewrite length_replicate; lia).
    apply lookup_replicate in Hj as [-> _]. done. }
  lia.
Qed.



(** X9: when the popup is blocked and the notifier allows the redirection,
    the page is sent to the login URL, with the completion URL to return to
    (the configured one, normalised, or else the current location) as the
    [next] parameter; the promise of that [login()] is left pending, for
    good. *)
Theorem login_blocked_redirect_accepted (href : string) (history later : list Action) :
  let w := run options normalizeUrl buildUrl call_need history (initial_world href) in
  let r := login options normalizeUrl buildUrl None w in
  let w' := notifier_resolved options normalizeUrl buildUrl (fst r) true (snd r) in
  let target := buildUrl (loginUrl options) (location w) (nextQueryParam options)
                         (match redirectionCompleteUrl options with
                          | Some u => normalizeUrl u
                          | None => location w
                          end) in
  location w' = target /\
  trace w' = trace w ++ [EvWindowOpen (buildUrl (loginUrl options) (location w)
                                                (nextQueryParam options)
                                                (normalizeUrl (completeUrl options)));
                         EvPopupFailedNotifier; EvSetLocation target] /\
  settled (run options normalizeUrl buildUrl call_need later w') !! fst r = None.
Proof.
  intros w r w' target.
  destruct (reachable_fresh options normalizeUrl buildUrl call_need href history)
    as (F1 & F2 & F3). fold w in F1, F2, F3.
  assert (w' = set_location target
                 (set_awaitingNotifier
                    (filter (λ q, q ≠ nextPromise w) (awaitingNotifier w ++ [nextPromise w]))
                    (snd r))) as Hw'.
  { subst w' r. unfold notifier_resolved. simpl.
    rewrite bool_decide_eq_true_2
      by (apply elem_of_app; right; by apply list_elem_of_singleton).
    reflexivity. }
  split; [ by rewrite Hw' | ]. split.
  - rewrite Hw'. subst r. simpl. rewrite <- !app_assoc. reflexivity.
  - assert (pending (fst r) w') as Hpending.
    { rewrite Hw'. subst r. unfold pending. simpl. split; [ apply F1; lia | ].
      split; [ | lia ]. intros H. apply list_elem_of_filter in H as [H _]. done. }
    eapply pending_Evolves; [ exact Hpending | apply run_Evolves ].
Qed.

(** X10: the refusal reaches the caller whatever happens between the
    [login()] call and the notifier's answer (messages, other logins,
    refreshes, answers of other notifiers): the promise is rejected with the
    message, and the answer changes nothing else. *)
Theorem notifier_refusal_after_interleaving (href : string)
        (history between : list Action) :
  let w := run options normalizeUrl buildUrl call_need history (initial_world href) in
  let r := login options normalizeUrl buildUrl None w in
  let w1 := run options normalizeUrl buildUrl call_need between (snd r) in
  let w' := notifier_resolved options normalizeUrl buildUrl (fst r) false w1 in
  (forall a ok, a ∈ between -> a <> ANotifierResolved (fst r) ok) ->
  settled w1 !! fst r = None /\
  settled w' !! fst r =
    Some (Rejected "Could not open popup window and redirection has not been allowed") /\
  location w' = location w1 /\ trace w' = trace w1 /\ promises w' = promises w1 /\
  loginState w' = loginState w1.
Proof.
  intros w r w1 w' Hother.
  destruct (reachable_fresh options normalizeUrl buildUrl call_need href history)
    as (F1 & _). fold w in F1.
  assert (fst r ∈ awaitingNotifier w1 /\ settled w1 !! fst r = None) as [Ha Hs].
  { subst w1. revert Hother.
    induction between as [ | a rest IH ] using rev_ind; intros Hother.
    - subst r. simpl. split; [ | apply F1; lia ].
      apply elem_of_app. right. by apply list_elem_of_singleton.
    - rewrite run_app. simpl. apply awaiting_step.
      + intros ok. apply Hother. apply elem_of_app. right. by apply list_elem_of_singleton.
      + apply IH. intros b ok Hb. apply Hother. apply elem_of_app. by left. }
  split; [ exact Hs | ].
  subst w'. generalize dependent (fst r). intros p _ Ha Hs.
  unfold notifier_resolved. rewrite bool_decide_eq_true_2 by exact Ha.
  unfold handleFailedLoginPopup_then, settle. simpl. rewrite Hs. simpl.
  rewrite lookup_insert_eq. done.
Qed.

(** X11: a logged-out cache is never trusted: on it [check(true)] does
    exactly what [check(false)] does, request included. *)
Theorem check_logged_out_refetches (resp : AuthenticationState) (w : World) :
  loggedIn (loginState w) = false ->
  check options true resp w = check options false resp w /\
  trace (snd (check options true resp w)) <> trace w.
Proof.
  intros Hout. unfold check. rewrite Hout. simpl. split; [ reflexivity | ].
  destruct (loginStateTransformer options); simpl; intros H;
    apply (f_equal length) in H; rewrite !length_app in H; simpl in H; lia.
Qed.

(** X12: once a refresh has stored a logged-in state, every later
    [check(true)] answers with that state and asks the server nothing,
    whatever the server would say by then. *)
Theorem check_refresh_then_cached (resp resp' : AuthenticationState) (w : World) :
  let fetched := match loginStateTransformer options with
                 | Some transformer => transformer resp
                 | None => resp
                 end in
  let w1 := snd (check options false resp w) in
  loggedIn fetched = true ->
  check options true resp' w1 = (fetched, w1).
Proof.
  intros fetched w1 Hlogged.
  assert (loginState w1 = fetched) as Hst by (subst w1; apply check_false_loginState).
  unfold check at 1. rewrite Hst, Hlogged. simpl. reflexivity.
Qed.

(** X13: what [loginAndAuthorize] answers after the popup is computed from
    the state it held before the popup.  If that state had no provided needs
    and no required need is a function, the answer is false, whatever the
    refreshed state provides. *)
Theorem loginAndAuthorize_resume_uses_old_needs (authState : AuthenticationState)
        (needsRequired : list Need) (extra : JsValue) (w : World) :
  or_empty (needsProvided authState) = [] ->
  forallb (fun n => negb (is_function_need n)) needsRequired = true ->
  fst (loginAndAuthorize_resume call_need authState (Some needsRequired) extra w) = false.
Proof.
  intros Hnone Hnofun. unfold loginAndAuthorize_resume.
  destruct (negb (loggedIn (loginState w))); [ reflexivity | ].
  unfold run_authorize.
  destruct (authorize call_need authState (Some needsRequired) (needsProvided authState) extra)
    as [b calls] eqn:Hauth.
  simpl. change b with (fst (b, calls)). rewrite <- Hauth.
  apply not_true_is_false. rewrite authorize_true_iff. rewrite Hnone. simpl.
  intros (n & Hin & Hsat).
  rewrite forallb_forall in Hnofun. specialize (Hnofun n Hin).
  destruct n as [ s | f | o ]; simpl in *; discriminate.
Qed.

End HandshakeProperties.

(** ** The navigation guard *)

Section PopupLoginPluginProperties.

Variable options : LoginOptions.
Variable call_need : nat -> AuthenticationState -> list Need -> JsValue -> bool.

Lemma check_result b resp w :
  fst (check options b resp w) = loginState (snd (check options b resp w)).
Proof.
  unfold check. destruct (loggedIn (loginState w) && b); [ reflexivity | ].
  by destruct (loginStateTransformer options).
Qed.

(** On a logged-in state the loop asks the matcher about the cached state,
    round after round, and gets the same answer. *)
Lemma beforeEach_loop_logged_in rounds needsRequired to resp w :
  loggedIn (loginState w) = true ->
  match beforeEach_loop options call_need rounds needsRequired to resp w with
  | NavProceeded _ =>
      fst (authorize call_need (loginState w) (Some needsRequired)
             (needsProvided (loginState w)) (JObj [("route", to)])) = true
  | NavAwaitingLogin _ _ _ => False
  | NavRetrying _ =>
      rounds = 0 \/
      fst (authorize call_need (loginState w) (Some needsRequired)
             (needsProvided (loginState w)) (JObj [("route", to)])) = false
  end.
Proof.
  revert w. induction rounds as [ | rounds IH ]; intros w Hlogged; simpl; [ by left | ].
  unfold loginAndAuthorize, check. rewrite Hlogged. simpl. rewrite Hlogged. simpl.
  unfold run_authorize.
  destruct (authorize call_need (loginState w) (Some needsRequired)
              (needsProvided (loginState w)) (JObj [("route", to)])) as [b calls] eqn:Hauth.
  destruct b; simpl; [ reflexivity | ].
  specialize (IH (log (map EvNeedCall calls) w) Hlogged). simpl in IH.
  rewrite Hauth in IH. simpl in IH.
  destruct (beforeEach_loop options call_need rounds needsRequired to resp
              (log (map EvNeedCall calls) w)); [ discriminate | exact IH | by right ].
Qed.

(** The guard, for at least one round, from any state. *)
Lemma beforeEach_loop_outcome rounds needsRequired to resp w :
  let state := fst (check options true resp w) in
  let answer := fst (authorize call_need state (Some needsRequired)
                       (needsProvided state) (JObj [("route", to)])) in
  match beforeEach_loop options call_need (S rounds) needsRequired to resp w with
  | NavProceeded _ => loggedIn state = true /\ answer = true
  | NavAwaitingLogin _ authState _ => loggedIn state = false /\ authState = state
  | NavRetrying _ => loggedIn state = true /\ answer = false
  end.
Proof.
  intros state answer. subst answer state. simpl. unfold loginAndAuthorize.
  pose proof (check_result true resp w) as Hst.
  destruct (check options true resp w) as [st w1]. simpl in *.
  destruct (loggedIn st) eqn:Hlogged; simpl; [ | done ].
  unfold run_authorize.
  destruct (authorize call_need st (Some needsRequired) (needsProvided st)
              (JObj [("route", to)])) as [b calls] eqn:Hauth.
  destruct b; simpl; [ done | ].
  pose proof (beforeEach_loop_logged_in rounds needsRequired to resp
                (log (map EvNeedCall calls) w1)) as Hloop.
  simpl in Hloop. rewrite <- Hst, Hauth in Hloop. specialize (Hloop Hlogged).
  destruct (beforeEach_loop options call_need rounds needsRequired to resp
              (log (map EvNeedCall calls) w1)); simpl in *; [ discriminate | done | done ].
Qed.

(** X14: the guard lets a navigation to a protected route through exactly
    when the state that [check(true)] gives is logged in and the matcher
    accepts it; otherwise it never calls [next()], however many rounds its
    loop makes. *)
Theorem beforeEach_proceeds_iff_authorized (rounds : nat) (a : RouteAuthorization)
        (to : JsValue) (resp : AuthenticationState) (w : World) :
  let state := fst (check options true resp w) in
  (exists w', beforeEach options call_need (S rounds) (Some a) to resp w = NavProceeded w') <->
  loggedIn state = true /\
  fst (authorize call_need state (Some (or_empty (meta_needsRequired a)))
         (needsProvided state) (JObj [("route", to)])) = true.
Proof.
  intros state. unfold beforeEach.
  pose proof (beforeEach_loop_outcome rounds (or_empty (meta_needsRequired a)) to resp w)
    as Hout. cbv zeta in Hout. fold state in Hout.
  destruct (beforeEach_loop options call_need (S rounds) (or_empty (meta_needsRequired a))
              to resp w) as [ w' | p authState w' | w' ]; split.
  - intros _. exact Hout.
  - intros _. by exists w'.
  - intros (w'' & H). discriminate.
  - intros [Hlogged _]. destruct Hout as [Hout _]. congruence.
  - intros (w'' & H). discriminate.
  - intros [_ Hanswer]. destruct Hout as [_ Hout]. congruence.
Qed.

Lemma beforeEach_loop_no_needs rounds to resp w w' :
  beforeEach_loop options call_need rounds [] to resp w <> NavProceeded w'.
Proof.
  destruct rounds as [ | rounds ]; [ discriminate | ].
  pose proof (beforeEach_loop_outcome rounds [] to resp w) as Hout. cbv zeta in Hout.
  destruct (beforeEach_loop options call_need (S rounds) [] to resp w);
    [ | discriminate | discriminate ].
  destruct Hout as [_ Hout]. discriminate.
Qed.

(** X15: a route whose [authorization] names no required need (the list is
    missing or empty) is never entered: the guard passes an empty list to the
    matcher, which answers false, so [next()] is never called, neither by the
    loop nor after a resumed wait for the popup. *)
Theorem beforeEach_no_needs_never_proceeds (rounds : nat) (a : RouteAuthorization)
        (to : JsValue) (resp authState : AuthenticationState) (w w' : World) :
  or_empty (meta_needsRequired a) = [] ->
  beforeEach options call_need rounds (Some a) to resp w <> NavProceeded w' /\
  beforeEach_resume options call_need rounds (or_empty (meta_needsRequired a)) to resp
                    authState w <> NavProceeded w'.
Proof.
  intros Hnone. unfold beforeEach, beforeEach_resume. rewrite Hnone.
  split; [ apply beforeEach_loop_no_needs | ].
  unfold loginAndAuthorize_resume.
  destruct (negb (loggedIn (loginState w))); [ apply beforeEach_loop_no_needs | ].
  unfold run_authorize. simpl. apply beforeEach_loop_no_needs.
Qed.

End PopupLoginPluginProperties.

(** ** The initialisation *)

Lemma or_default_truthy (x : option string) (d : string) :
  d <> "" -> truthy (Some (or_default x d)) = true.
Proof.
  intros Hd. unfold or_default, truthy.
  destruct x as [ s | ]; [ destruct (String.eqb s "") eqn:E | ].
  - apply negb_true_iff. by apply String.eqb_neq.
  - by rewrite E.
  - apply negb_true_iff. by apply String.eqb_neq.
Qed.

Lemma usePopupLogin_initialised (o : UsePopupLoginOptions) (m : ModuleState) :
  truthy (m_loginUrl (usePopupLogin o m)) = true.
Proof.
  unfold usePopupLogin. destruct (truthy (m_loginUrl m)) eqn:E; simpl; [ exact E | ].
  by apply or_default_truthy.
Qed.

Lemma usePopupLogin_absorbs (o : UsePopupLoginOptions) (os : list UsePopupLoginOptions)
      (m : ModuleState) :
  truthy (m_loginUrl m) = true ->
  foldl (fun m' o' => usePopupLogin o' m') m os = m.
Proof.
  intros Hm. induction os as [ | o' rest IH ]; simpl; [ reflexivity | ].
  unfold usePopupLogin at 2. rewrite Hm. simpl. exact IH.
Qed.

(** X16: the first call of [usePopupLogin] wins.  After it, any number of
    further calls, with whatever options, leave the module as it is. *)
Theorem usePopupLogin_first_call_wins (o : UsePopupLoginOptions)
        (os : list UsePopupLoginOptions) (m : ModuleState) :
  foldl (fun m' o' => usePopupLogin o' m') (usePopupLogin o m) os = usePopupLogin o m.
Proof. apply (usePopupLogin_absorbs o). apply usePopupLogin_initialised. Qed.

(** X17: after the first call, and for good, none of the URLs and names
    that the functions read is null or empty, whatever was passed (empty
    strings included); the return URL of a redirection is null or non-empty;
    there is a popup-failed notifier and a channel. *)
Theorem usePopupLogin_fields_set (o : UsePopupLoginOptions)
        (os : list UsePopupLoginOptions) :
  let m := foldl (fun m' o' => usePopupLogin o' m') (usePopupLogin o uninitialised) os in
  truthy (m_loginUrl m) = true /\ truthy (m_logoutUrl m) = true /\
  truthy (m_completeUrl m) = true /\ truthy (m_stateUrl m) = true /\
  truthy (m_nextQueryParam m) = true /\
  (m_redirectionCompleteUrl m = None \/ truthy (m_redirectionCompleteUrl m) = true) /\
  m_popupFailedNotifier m <> None /\
  m_channel m = Some "popup-login-channel".
Proof.
  intros m. subst m.
  rewrite (usePopupLogin_absorbs o) by apply usePopupLogin_initialised.
  unfold usePopupLogin. simpl.
  repeat (split; [ by apply or_default_truthy | ]).
  split; [ | by split ].
  destruct (truthy (opt_redirectionCompleteUrl o)) eqn:E; [ by right | by left ].
Qed.

(** ** The further properties on sample data *)

(** A string need and a function need, in both orders. *)
Lemma authorize_order_irrelevant_witness :
  fst (authorize sample_call_need sample_admin
         (Some [StringNeed "admin"; FunctionNeed 2]) (Some []) JNull) =
  fst (authorize sample_call_need sample_admin
         (Some [FunctionNeed 2; StringNeed "admin"]) (Some []) JNull).
Proof. apply authorize_order_irrelevant. apply perm_swap. Defined.

(** "admin" stays authorised when "editor" is provided as well. *)
Lemma authorize_more_provided_witness :
  fst (authorize sample_call_need sample_admin (Some [StringNeed "admin"])
         (Some [StringNeed "editor"; StringNeed "admin"]) JNull) = true.
Proof.
  apply (authorize_more_provided sample_call_need sample_admin [StringNeed "admin"]
           [StringNeed "admin"] [StringNeed "editor"; StringNeed "admin"] JNull).
  - reflexivity.
  - intros m [ <- | [] ]. simpl. right. by left.
  - reflexivity.
Defined.

(** The provided string need stops the loop before the second function
    need, truthy as it is, gets invoked. *)
Lemma authorize_invocations_witness :
  authorize sample_call_need sample_admin
            (Some [FunctionNeed 1; StringNeed "admin"; FunctionNeed 2])
            (Some [StringNeed "admin"]) JNull =
  (true, [mkCall 1 sample_admin [StringNeed "admin"] JNull]).
Proof.
  destruct (authorize_invocations sample_call_need sample_admin
              [FunctionNeed 1; StringNeed "admin"; FunctionNeed 2]
              (Some [StringNeed "admin"]) JNull) as [Hfirst _].
  apply (Hfirst [FunctionNeed 1] (StringNeed "admin") [FunctionNeed 2]).
  - reflexivity.
  - intros m [ <- | [] ]. reflexivity.
  - reflexivity.
Defined.

(** The logged-out state passes as the administrator does. *)
Lemma authorize_ignores_state_witness :
  authorize sample_call_need sample_admin (Some [StringNeed "admin"])
            (Some [StringNeed "admin"]) JNull =
  authorize (fun _ _ _ _ => true) sample_anonymous (Some [StringNeed "admin"])
            (Some [StringNeed "admin"]) (JBool true).
Proof.
  apply (authorize_ignores_state sample_call_need (fun _ _ _ _ => true) sample_admin
           sample_anonymous [StringNeed "admin"] (Some [StringNeed "admin"]) JNull (JBool true)).
  reflexivity.
Defined.



(** A message and another [login()] come in before the notifier answers. *)
Lemma notifier_refusal_after_interleaving_witness :
  let between := [AMessage sample_message; ALogin (Some PopupWindow)] in
  let r := login sample_options sample_normalizeUrl sample_buildUrl None
                 (initial_world sample_href) in
  let w1 := run sample_options sample_normalizeUrl sample_buildUrl sample_call_need
                between (snd r) in
  settled (notifier_resolved sample_options sample_normalizeUrl sample_buildUrl
                             (fst r) false w1) !! fst r =
  Some (Rejected "Could not open popup window and redirection has not been allowed").
Proof.
  intros between r w1.
  destruct (notifier_refusal_after_interleaving sample_options sample_normalizeUrl
              sample_buildUrl sample_call_need sample_href [] between) as (_ & H & _).
  - intros a ok Ha. subst between.
    apply elem_of_cons in Ha as [ -> | Ha ]; [ discriminate | ].
    apply elem_of_cons in Ha as [ -> | Ha ]; [ discriminate | ].
    by apply elem_of_nil in Ha.
  - exact H.
Defined.

(** The initial state is logged out: [check(true)] asks the server. *)
Lemma check_logged_out_refetches_witness :
  check sample_options true sample_admin (initial_world sample_href) =
  check sample_options false sample_admin (initial_world sample_href).
Proof.
  apply (check_logged_out_refetches sample_options sample_admin (initial_world sample_href)).
  reflexivity.
Defined.

(** The administrator is fetched once; the next [check(true)] is answered
    from the cache, although the server would now say logged out. *)
Lemma check_refresh_then_cached_witness :
  let w1 := snd (check sample_options false sample_admin (initial_world sample_href)) in
  check sample_options true sample_anonymous w1 = (sample_admin, w1).
Proof.
  apply (check_refresh_then_cached sample_options sample_admin sample_anonymous
           (initial_world sample_href)).
  reflexivity.
Defined.

(** Resumed while the administrator is logged in, the call still answers
    from the logged-out state it held. *)
Lemma loginAndAuthorize_resume_uses_old_needs_witness :
  fst (loginAndAuthorize_resume sample_call_need sample_anonymous
         (Some [StringNeed "admin"]) JNull sample_logged_in_world) = false.
Proof.
  apply (loginAndAuthorize_resume_uses_old_needs sample_call_need sample_anonymous
           [StringNeed "admin"] JNull sample_logged_in_world); reflexivity.
Defined.

(** A route with an [authorization] without needs, the administrator logged
    in, five rounds of the loop. *)
Lemma beforeEach_no_needs_never_proceeds_witness :
  beforeEach sample_options sample_call_need 5 (Some (mkAuthorization None))
             (JStr "/admin") sample_anonymous sample_logged_in_world
  <> NavProceeded sample_logged_in_world.
Proof.
  apply (beforeEach_no_needs_never_proceeds sample_options sample_call_need 5
           (mkAuthorization None) (JStr "/admin") sample_anonymous sample_anonymous
           sample_logged_in_world sample_logged_in_world).
  reflexivity.
Defined.
